(** * goverreport: the [report] package

    A shallow embedding of [report/report.go] and the properties of its
    coverage aggregation ([accumulator], [GenerateReport]) and of its
    ordering of the per-file summaries ([sortResults]).

    Conventions of the embedding:
    - Go's [int] is a 64-bit two's-complement integer: a [Z] kept in
      [-2^63, 2^63) by [int_wrap] after every arithmetic operation;
    - Go's [float64] is Rocq's primitive binary64 [float];
    - Go's [string] is a [string] of bytes; [<] on strings is the bytewise
      lexicographic order [String.ltb];
    - a function returning [(T, error)] returns a pair [T * option error],
      [None] being Go's [nil] error;
    - the map [files] is a [gmap string accumulator]; the order in which
      [range] visits it, the profile parser and [sort.Slice] belong to the
      Go runtime and libraries and are parameters of the development. *)

From Stdlib Require Import ZArith Floats Lia String Ascii.
From stdpp Require Import base option list gmap strings sorting.

Local Open Scope string_scope.
Local Open Scope list_scope.
Local Open Scope Z_scope.

(** ** Machine integers and floats *)

Definition int_min : Z := - 2 ^ 63.
Definition int_max : Z := 2 ^ 63 - 1.

Definition int_wrap (z : Z) : Z := (z + 2 ^ 63) mod 2 ^ 64 - 2 ^ 63.
Definition int_add (a b : Z) : Z := int_wrap (a + b).
Definition int_sub (a b : Z) : Z := int_wrap (a - b).

(** The sum of a sequence of [int]s, accumulated in an [int]. *)
Definition int_sum (l : list Z) : Z := foldr int_add 0 l.

(** [float64(n)]: the integer [n] rounded to the nearest binary64. *)
Definition float64_of_int (n : Z) : float :=
  SF2Prim (binary_normalize prec emax n 0 false).

(** ** Errors *)

Inductive error : Type := errors_New (text : string).

Definition Error (e : error) : string := let 'errors_New text := e in text.

(** ** The [cover] package: the parsed profile *)

Module cover.

(** [cover.ProfileBlock]; the report reads [NumStmt] and [Count] only. *)
Record ProfileBlock : Type := mkProfileBlock {
  StartLine : Z; StartCol : Z;
  EndLine : Z; EndCol : Z;
  NumStmt : Z; Count : Z
}.

Record Profile : Type := mkProfile {
  FileName : string;
  Mode : string;
  Blocks : list ProfileBlock
}.

End cover.

(** ** Summaries and reports *)

Record Summary : Type := mkSummary {
  Name : string;
  Blocks : Z; Stmts : Z; MissingBlocks : Z; MissingStmts : Z;
  BlockCoverage : float; StmtCoverage : float
}.

Record Report : Type := mkReport {
  Total : Summary;
  Files : list Summary
}.

(** The zero values [Summary{}] and [Report{}]. *)
Definition Summary_zero : Summary := mkSummary "" 0 0 0 0 0%float 0%float.
Definition Report_zero : Report := mkReport Summary_zero [].

(** ** The accumulator *)

Record accumulator : Type := mkAccumulator {
  name : string;
  blocks : Z; stmts : Z; coveredBlocks : Z; coveredStmts : Z
}.

(** [&accumulator{name: n}] *)
Definition accumulator_new (n : string) : accumulator := mkAccumulator n 0 0 0 0.

Definition add (a : accumulator) (block : cover.ProfileBlock) : accumulator :=
  let blocks' := int_add (blocks a) 1 in
  let stmts' := int_add (stmts a) (cover.NumStmt block) in
  if 0 <? cover.Count block then
    mkAccumulator (name a) blocks' stmts'
      (int_add (coveredBlocks a) 1)
      (int_add (coveredStmts a) (cover.NumStmt block))
  else
    mkAccumulator (name a) blocks' stmts' (coveredBlocks a) (coveredStmts a).

Definition results (a : accumulator) : Summary :=
  {| Name := name a;
     Blocks := blocks a;
     Stmts := stmts a;
     MissingBlocks := int_sub (blocks a) (coveredBlocks a);
     MissingStmts := int_sub (stmts a) (coveredStmts a);
     BlockCoverage :=
       (float64_of_int (coveredBlocks a) / float64_of_int (blocks a) * 100)%float;
     StmtCoverage :=
       (float64_of_int (coveredStmts a) / float64_of_int (stmts a) * 100)%float |}.

(** ** The [strings] package *)

(** [strings.HasPrefix(s, prefix)] *)
Definition strings_HasPrefix (s pre : string) : bool := String.prefix pre s.

(** The loop of [strings.Replace(s, old, "", -1)] for a non-empty [old]: the
    leftmost occurrence of [old] is dropped and the search resumes after it.
    Every round consumes at least one byte of [s], so [String.length s] rounds
    (the [fuel]) are enough. *)
Fixpoint replace_loop (fuel : nat) (old s : string) : string :=
  match fuel with
  | O => s
  | S fuel' =>
      if String.prefix old s then
        replace_loop fuel' old
          (substring (String.length old) (String.length s - String.length old) s)
      else
        match s with
        | EmptyString => EmptyString
        | String c s' => String c (replace_loop fuel' old s')
        end
  end.

(** [strings.Replace(s, old, "", -1)]; Go returns [s] at once when [old] is
    the replacement itself, here the empty string. *)
Definition strings_Replace_all (s old : string) : string :=
  match old with
  | EmptyString => s
  | _ => replace_loop (String.length s) old s
  end.

(** ** The [sort] package

    [sort.Slice(data, less)] only touches [data] through [less(i, j)] and
    [swap(i, j)]; [less] is a closure over the slice being sorted, so in the
    embedding it receives the current contents of the slice. *)

Definition less_func : Type := list Summary -> nat -> nat -> bool.

(** [reports[i]]; the sort only passes indices that are in range. *)
Definition at_index (reports : list Summary) (i : nat) : Summary :=
  default Summary_zero (reports !! i).

Definition swap (data : list Summary) (i j : nat) : list Summary :=
  match data !! i, data !! j with
  | Some x, Some y => <[i := y]> (<[j := x]> data)
  | _, _ => data
  end.

(** The inner loop of [insertionSort_func]:
    [for j := i; j > 0 && less(j, j-1); j-- { swap(j, j-1) }]. *)
Fixpoint insertion_inner (less : less_func) (data : list Summary) (j : nat)
  : list Summary :=
  match j with
  | O => data
  | S j' =>
      if less data j j' then insertion_inner less (swap data j j') j' else data
  end.

(** [insertionSort_func(data, 0, len(data))]:
    [for i := 1; i < len(data); i++ { inner loop }]. *)
Definition insertionSort_func (less : less_func) (data : list Summary)
  : list Summary :=
  foldl (insertion_inner less) data (seq 1 (length data - 1)).

(** ** Sorting the per-file summaries *)

(** The five closures of the [switch mode] in [sortResults]. *)
Definition less_filename : less_func := fun reports i j =>
  String.ltb (Name (at_index reports i)) (Name (at_index reports j)).
Definition less_block : less_func := fun reports i j =>
  (BlockCoverage (at_index reports i) <? BlockCoverage (at_index reports j))%float.
Definition less_stmt : less_func := fun reports i j =>
  (StmtCoverage (at_index reports j) <? StmtCoverage (at_index reports j))%float.
Definition less_missing_blocks : less_func := fun reports i j =>
  MissingBlocks (at_index reports i) <? MissingBlocks (at_index reports j).
Definition less_missing_stmts : less_func := fun reports i j =>
  MissingStmts (at_index reports i) <? MissingStmts (at_index reports j).

(** [switch order]: the value of [reverse], [None] in the [default] case. *)
Definition reverse_of_order (order : string) : option bool :=
  if String.eqb order "asc" then Some false
  else if String.eqb order "desc" then Some true
  else None.

(** [switch mode]: the closure [less], [None] in the [default] case. *)
Definition less_of_mode (mode : string) : option less_func :=
  if String.eqb mode "filename" then Some less_filename
  else if String.eqb mode "block" then Some less_block
  else if String.eqb mode "stmt" then Some less_stmt
  else if String.eqb mode "missing-blocks" then Some less_missing_blocks
  else if String.eqb mode "missing-stmts" then Some less_missing_stmts
  else None.

(** The closure handed to [sort.Slice]. *)
Definition directed (reverse : bool) (less : less_func) : less_func :=
  fun reports i j => if reverse then negb (less reports i j) else less reports i j.

Definition err_order : error := errors_New "Order must be either asc or desc".
Definition err_mode : error :=
  errors_New
    "Invalid sort colum, must be one of filename, block, stmt, missing-blocks or missing-stmts".

(** [fmt.Errorf("Invalid coverprofile: '%s'", err)] *)
Definition err_coverprofile (err : error) : error :=
  errors_New ("Invalid coverprofile: '" +:+ Error err +:+ "'").

(** ** Display names and exclusions (the head of the loop of [GenerateReport]) *)

Definition display_name (root fileName : string) : string :=
  if String.eqb root "" then fileName
  else strings_Replace_all fileName (root +:+ "/").

(** The loop over [exclusions], returning the final value of [skip]. *)
Definition skipped (fileName : string) (exclusions : list string) : bool :=
  foldl (fun skip exclusion =>
           if strings_HasPrefix fileName exclusion then true else skip)
        false exclusions.

(** The loop over [profile.Blocks]: every block goes to both accumulators. *)
Definition add_blocks (total fileCover : accumulator)
    (bs : list cover.ProfileBlock) : accumulator * accumulator :=
  foldl (fun acc block => (add acc.1 block, add acc.2 block)) (total, fileCover) bs.

(** One round of the loop over [profiles], on the state [(total, files)]. *)
Definition visit_profile (root : string) (exclusions : list string)
    (st : accumulator * gmap string accumulator) (profile : cover.Profile)
  : accumulator * gmap string accumulator :=
  let fileName := display_name root (cover.FileName profile) in
  if skipped fileName exclusions then st
  else
    let fileCover := default (accumulator_new fileName) (st.2 !! fileName) in
    let acc := add_blocks st.1 fileCover (cover.Blocks profile) in
    (acc.1, <[fileName := acc.2]> st.2).

Definition accumulate (root : string) (exclusions : list string)
    (profiles : list cover.Profile) : accumulator * gmap string accumulator :=
  foldl (visit_profile root exclusions) (accumulator_new "Total", ∅) profiles.

(** ** The report, over the Go runtime and libraries *)

Section Report.

(** [cover.ParseProfiles]: the profiles of a file, or an error. *)
Variable ParseProfiles : string -> list cover.Profile * option error.

(** The sequence of entries a [range] over the map [files] yields. The Go
    specification leaves its order open and the runtime randomises it. *)
Variable map_range : gmap string accumulator -> list (string * accumulator).

(** [sort.Slice] *)
Variable sort_Slice : list Summary -> less_func -> list Summary.

(** The slice [reports] after the call, and the error. *)
Definition sortResults (reports : list Summary) (mode order : string)
  : list Summary * option error :=
  match reverse_of_order order with
  | None => (reports, Some err_order)
  | Some reverse =>
      match less_of_mode mode with
      | None => (reports, Some err_mode)
      | Some less => (sort_Slice reports (directed reverse less), None)
      end
  end.

Definition makeReport (total : accumulator) (files : gmap string accumulator)
    (sortBy order : string) : Report * option error :=
  let fileReports := map (fun kv => results kv.2) (map_range files) in
  match sortResults fileReports sortBy order with
  | (_, Some err) => (Report_zero, Some err)
  | (fileReports', None) =>
      ({| Total := results total; Files := fileReports' |}, None)
  end.

Definition GenerateReport (coverprofile root : string)
    (exclusions : list string) (sortBy order : string)
  : Report * option error :=
  match ParseProfiles coverprofile with
  | (_, Some err) => (Report_zero, Some (err_coverprofile err))
  | (profiles, None) =>
      let st := accumulate root exclusions profiles in
      makeReport st.1 st.2 sortBy order
  end.

End Report.

(** ** Instances of the runtime used to run the model *)

(** A map visited in the order of its key enumeration, and in the opposite
    order: two of the orders a [range] may take. *)
Definition range_up (m : gmap string accumulator) : list (string * accumulator) :=
  map_to_list m.
Definition range_down (m : gmap string accumulator) : list (string * accumulator) :=
  reverse (map_to_list m).

(** [sort.Slice] on a short slice: every Go release sorts a slice of at most
    six elements by [insertionSort_func] alone (the quicksort of Go 1.8 to
    1.18 adds a gap-6 pass from seven elements on, the pattern-defeating
    quicksort of later releases switches at twelve). *)
Definition sort_Slice_short (data : list Summary) (less : less_func)
  : list Summary :=
  insertionSort_func less data.

(** A parser that yields the same outcome for every file. *)
Definition parse_const (out : list cover.Profile * option error)
  : string -> list cover.Profile * option error := fun _ => out.

(** A block with [n] statements executed [c] times. *)
Definition block (n c : Z) : cover.ProfileBlock := cover.mkProfileBlock 1 1 1 1 n c.

(** Two files: [a.go] with blocks of 3 and 2 statements, the first one
    executed, and [b.go] with one executed block of 5 statements. *)
Definition two_files : list cover.Profile :=
  [ cover.mkProfile "a.go" "set" [block 3 1; block 2 0];
    cover.mkProfile "b.go" "set" [block 5 5] ].

(** An error of the parser. *)
Definition no_such_file : error :=
  errors_New "open cover.out: no such file or directory".

(** Two files with two missing statements each. *)
Definition tied_files : list cover.Profile :=
  [ cover.mkProfile "a.go" "set" [block 3 1; block 2 0];
    cover.mkProfile "b.go" "set" [block 5 1; block 2 0] ].

(** Their summaries. *)
Definition tied_a : Summary :=
  results (foldl add (accumulator_new "a.go") [block 3 1; block 2 0]).
Definition tied_b : Summary :=
  results (foldl add (accumulator_new "b.go") [block 5 1; block 2 0]).

(** The same file in two profiles, and a second file without blocks. *)
Definition split_files : list cover.Profile :=
  [ cover.mkProfile "src/a.go" "count" [block 3 1];
    cover.mkProfile "src/b.go" "count" [];
    cover.mkProfile "src/a.go" "count" [block 2 0; block 4 7] ].

(** * The vocabulary of the properties *)

(** ** The insertion sort as a function on lists *)

(** [sink x rp]: [x] enters the sorted prefix from its right end; [rp] is
    that prefix, last element first. *)
Fixpoint sink (cmp : Summary -> Summary -> bool) (x : Summary)
    (rp : list Summary) : list Summary :=
  match rp with
  | [] => [x]
  | y :: rp' => if cmp x y then y :: sink cmp x rp' else x :: rp
  end.

Definition isort (cmp : Summary -> Summary -> bool) (l : list Summary)
  : list Summary :=
  reverse (foldl (fun rp x => sink cmp x rp) [] l).

(** A closure that compares the two indexed elements by [cmp]. *)
Definition induced (less : less_func) (cmp : Summary -> Summary -> bool) : Prop :=
  forall data i j x y,
    data !! i = Some x -> data !! j = Some y -> less data i j = cmp x y.

(** What the insertion sort by [cmp] leaves between a summary [x] and its
    right neighbour [y]. *)
Definition settled (cmp : Summary -> Summary -> bool) (x y : Summary) : Prop :=
  cmp y x = false \/ cmp x y = true.

(** ** The comparators, element by element *)

(** The five closures of [sortResults], on the two summaries they index. *)
Definition cmp_filename (x y : Summary) : bool := String.ltb (Name x) (Name y).
Definition cmp_block (x y : Summary) : bool :=
  (BlockCoverage x <? BlockCoverage y)%float.
Definition cmp_stmt (x y : Summary) : bool :=
  (StmtCoverage y <? StmtCoverage y)%float.
Definition cmp_missing_blocks (x y : Summary) : bool :=
  MissingBlocks x <? MissingBlocks y.
Definition cmp_missing_stmts (x y : Summary) : bool :=
  MissingStmts x <? MissingStmts y.

Definition cmp_directed (reverse : bool) (cmp : Summary -> Summary -> bool)
  : Summary -> Summary -> bool :=
  fun x y => if reverse then negb (cmp x y) else cmp x y.

(** The element-wise comparator of a recognised [mode]. *)
Definition cmp_of_mode (mode : string) : option (Summary -> Summary -> bool) :=
  if String.eqb mode "filename" then Some cmp_filename
  else if String.eqb mode "block" then Some cmp_block
  else if String.eqb mode "stmt" then Some cmp_stmt
  else if String.eqb mode "missing-blocks" then Some cmp_missing_blocks
  else if String.eqb mode "missing-stmts" then Some cmp_missing_stmts
  else None.

(** ** Sort keys *)

(** The value a [mode] is meant to order the summaries by. *)
Inductive key : Type :=
| key_string (s : string)
| key_float (f : float)
| key_int (n : Z).

Definition key_of_mode (mode : string) : option (Summary -> key) :=
  if String.eqb mode "filename" then Some (fun s => key_string (Name s))
  else if String.eqb mode "block" then Some (fun s => key_float (BlockCoverage s))
  else if String.eqb mode "stmt" then Some (fun s => key_float (StmtCoverage s))
  else if String.eqb mode "missing-blocks" then Some (fun s => key_int (MissingBlocks s))
  else if String.eqb mode "missing-stmts" then Some (fun s => key_int (MissingStmts s))
  else None.

(** The strict order of the keys: [<] on strings, floats and [int]s. *)
Definition key_lt (k1 k2 : key) : bool :=
  match k1, k2 with
  | key_string s1, key_string s2 => String.ltb s1 s2
  | key_float f1, key_float f2 => (f1 <? f2)%float
  | key_int n1, key_int n2 => n1 <? n2
  | _, _ => false
  end.

(** No two of the summaries tie on their key: of any two, one has the
    strictly smaller key. *)
Definition untied (key_of : Summary -> key) (l : list Summary) : Prop :=
  forall x y, x ∈ l -> y ∈ l -> x <> y ->
    key_lt (key_of x) (key_of y) = true \/ key_lt (key_of y) (key_of x) = true.

(** The order a comparator puts two neighbours in, in the direction of the
    sort. *)
Definition cmp_order (cmp : Summary -> Summary -> bool) (reverse : bool)
    (x y : Summary) : Prop :=
  if reverse then cmp y x = true else cmp x y = true.

(** ** What is assumed of the Go runtime and libraries *)

(** A [range] over a map yields every entry once, in some order. *)
Definition range_spec (map_range : gmap string accumulator -> list (string * accumulator))
  : Prop :=
  forall m, map_range m ≡ₚ map_to_list m.

(** [sort.Slice] rearranges the slice, whatever [less] answers. *)
Definition sort_permutes (sort_Slice : list Summary -> less_func -> list Summary)
  : Prop :=
  forall data less, sort_Slice data less ≡ₚ data.

(** [sort.Slice] on at most six elements is [insertionSort_func]. *)
Definition sort_short (sort_Slice : list Summary -> less_func -> list Summary)
  : Prop :=
  forall data less,
    (length data <= 6)%nat -> sort_Slice data less = insertionSort_func less data.

(** ** The arguments of the sort *)

Definition valid_order (order : string) : Prop := order = "asc" \/ order = "desc".

Definition valid_mode (mode : string) : Prop :=
  mode ∈ ["filename"; "block"; "stmt"; "missing-blocks"; "missing-stmts"].

#[local] Instance valid_order_dec order : Decision (valid_order order).
Proof. unfold valid_order. apply _. Defined.

#[local] Instance valid_mode_dec mode : Decision (valid_mode mode).
Proof. unfold valid_mode. apply _. Defined.

(** ** Counting blocks *)

(** The block [b] is counted as covered. *)
Definition covered (b : cover.ProfileBlock) : bool := 0 <? cover.Count b.

(** A quantity [field] of an accumulator that starts at zero and that [add]
    moves by [weight block], in [int] arithmetic. *)
Record counter (field : accumulator -> Z) (weight : cover.ProfileBlock -> Z)
  : Prop := {
  counter_new : forall n, field (accumulator_new n) = 0;
  counter_add : forall a b,
    int_wrap (field (add a b)) = int_wrap (field a + weight b)
}.

(** The total weight of a sequence of blocks, as a mathematical integer. *)
Definition total_weight (weight : cover.ProfileBlock -> Z)
    (bs : list cover.ProfileBlock) : Z :=
  foldr Z.add 0 (map weight bs).

(** All four fields of [a] are [int]s. *)
Definition ranged (a : accumulator) : Prop :=
  int_wrap (blocks a) = blocks a /\ int_wrap (stmts a) = stmts a /\
  int_wrap (coveredBlocks a) = coveredBlocks a /\
  int_wrap (coveredStmts a) = coveredStmts a.

(** ** The state of the loop of [GenerateReport] *)

(** The sum of a quantity over the accumulators of the map. *)
Definition map_total (field : accumulator -> Z) (m : gmap string accumulator) : Z :=
  foldr Z.add 0 ((fun kv => field kv.2) <$> map_to_list m).

(** What holds of [(total, files)] after every round of the loop. *)
Record accumulated (exclusions : list string)
    (st : accumulator * gmap string accumulator) : Prop := {
  acc_total_ranged : ranged st.1;
  acc_total_name : name st.1 = "Total";
  acc_file : forall k a,
    st.2 !! k = Some a -> ranged a /\ name a = k /\ skipped k exclusions = false;
  acc_counter : forall field weight,
    counter field weight ->
    int_wrap (field st.1) = int_wrap (map_total field st.2)
}.

(** ** Exclusions and retained profiles *)

(** The display name of [profile] starts with one of the exclusions. *)
Definition excluded (root : string) (exclusions : list string)
    (profile : cover.Profile) : bool :=
  existsb (fun exclusion =>
             String.prefix exclusion (display_name root (cover.FileName profile)))
          exclusions.

(** The profiles that are left once the excluded ones are taken away. *)
Definition retained (root : string) (exclusions : list string)
    (profiles : list cover.Profile) : list cover.Profile :=
  List.filter (fun profile => negb (excluded root exclusions profile)) profiles.

(** The display name of [p] is [k]. *)
Definition named (root k : string) (p : cover.Profile) : bool :=
  String.eqb (display_name root (cover.FileName p)) k.

(** The blocks of the retained profiles whose display name is [k]. *)
Definition file_blocks (root : string) (exclusions : list string) (k : string)
    (profiles : list cover.Profile) : list cover.ProfileBlock :=
  flat_map cover.Blocks
    (List.filter (named root k) (retained root exclusions profiles)).

(** ** The order of names *)

(** The strict order on names in the direction of the sort. *)
Definition name_order (reverse : bool) (x y : Summary) : Prop :=
  if reverse then String.ltb (Name y) (Name x) = true
  else String.ltb (Name x) (Name y) = true.

(** * Properties *)

(** ** Machine integers *)

Lemma int_wrap_range z : int_min <= int_wrap z <= int_max.
Proof.
  unfold int_wrap, int_min, int_max.
  pose proof (Z.mod_pos_bound (z + 2 ^ 63) (2 ^ 64) eq_refl). lia.
Qed.

Lemma int_wrap_small z : int_min <= z <= int_max -> int_wrap z = z.
Proof.
  unfold int_wrap, int_min, int_max. intros Hz.
  rewrite Z.mod_small by lia. lia.
Qed.

Lemma int_wrap_add_l a b : int_wrap (int_wrap a + b) = int_wrap (a + b).
Proof.
  unfold int_wrap.
  replace ((a + 2 ^ 63) mod 2 ^ 64 - 2 ^ 63 + b + 2 ^ 63)
    with ((a + 2 ^ 63) mod 2 ^ 64 + b) by lia.
  replace (a + b + 2 ^ 63) with ((a + 2 ^ 63) + b) by lia.
  by rewrite Zplus_mod_idemp_l.
Qed.

Lemma int_wrap_add_r a b : int_wrap (a + int_wrap b) = int_wrap (a + b).
Proof. rewrite (Z.add_comm a), int_wrap_add_l. f_equal; lia. Qed.

Lemma int_wrap_sub_l a b : int_wrap (int_wrap a - b) = int_wrap (a - b).
Proof. unfold Z.sub. apply int_wrap_add_l. Qed.

Lemma int_wrap_sub_r a b : int_wrap (a - int_wrap b) = int_wrap (a - b).
Proof.
  unfold int_wrap.
  replace (a - ((b + 2 ^ 63) mod 2 ^ 64 - 2 ^ 63) + 2 ^ 63)
    with ((a + 2 ^ 63 + 2 ^ 63) - (b + 2 ^ 63) mod 2 ^ 64) by lia.
  rewrite Zminus_mod_idemp_r. do 2 f_equal. f_equal. lia.
Qed.

Lemma int_wrap_idemp a : int_wrap (int_wrap a) = int_wrap a.
Proof. apply int_wrap_small, int_wrap_range. Qed.

(** The sum kept in an [int] is the wrapped mathematical sum. *)
Lemma int_sum_wrap l : int_sum l = int_wrap (foldr Z.add 0 l).
Proof.
  induction l as [|x l IH]; simpl; [done|].
  unfold int_add. by rewrite IH, int_wrap_add_r.
Qed.

(** Without overflow it is the mathematical sum. *)
Lemma int_sum_small l :
  int_min <= foldr Z.add 0 l <= int_max -> int_sum l = foldr Z.add 0 l.
Proof. intros Hl. rewrite int_sum_wrap. by apply int_wrap_small. Qed.

Lemma int_sum_perm l1 l2 : l1 ≡ₚ l2 -> int_sum l1 = int_sum l2.
Proof.
  intros Hp. rewrite !int_sum_wrap. f_equal.
  induction Hp; simpl; lia.
Qed.

(** ** [insertionSort_func] computes [isort] *)

Section InsertionSort.

Variable less : less_func.
Variable cmp : Summary -> Summary -> bool.
Hypothesis less_cmp : induced less cmp.

Lemma sink_length x rp : length (sink cmp x rp) = S (length rp).
Proof. induction rp as [|y rp IH]; simpl; [done|]. destruct (cmp x y); simpl; lia. Qed.

Lemma sinks_length l rp :
  length (foldl (fun rp x => sink cmp x rp) rp l) = (length l + length rp)%nat.
Proof.
  revert rp. induction l as [|x l IH]; intros rp; simpl; [done|].
  rewrite IH, sink_length. lia.
Qed.

Lemma swap_adjacent (p : list Summary) x y s :
  swap (p ++ y :: x :: s) (S (length p)) (length p) = p ++ x :: y :: s.
Proof.
  unfold swap.
  rewrite (lookup_app_r p) by lia.
  replace (S (length p) - length p)%nat with 1%nat by lia. simpl.
  rewrite (list_lookup_middle p) by done.
  rewrite (insert_app_r_alt p) by lia.
  replace (length p - length p)%nat with 0%nat by lia. simpl.
  rewrite (insert_app_r_alt p) by lia.
  replace (S (length p) - length p)%nat with 1%nat by lia. done.
Qed.

Lemma insertion_inner_sink rp x s :
  insertion_inner less (reverse rp ++ x :: s) (length rp)
  = reverse (sink cmp x rp) ++ s.
Proof.
  revert s. induction rp as [|y rp IH]; intros s; simpl; [done|].
  rewrite reverse_cons, <- (assoc_L (++)). simpl.
  rewrite (less_cmp _ _ _ x y).
  - destruct (cmp x y).
    + pose proof (swap_adjacent (reverse rp) x y s) as Hswap.
      rewrite length_reverse in Hswap. rewrite Hswap, IH.
      by rewrite reverse_cons, <- (assoc_L (++)).
    + by rewrite !reverse_cons, <- !(assoc_L (++)).
  - rewrite lookup_app_r by (rewrite length_reverse; lia).
    rewrite length_reverse. by replace (S (length rp) - length rp)%nat with 1%nat by lia.
  - by rewrite list_lookup_middle by (by rewrite length_reverse).
Qed.

Lemma insertion_rounds l k :
  (k <= length l)%nat ->
  foldl (insertion_inner less) l (seq 0 k)
  = reverse (foldl (fun rp x => sink cmp x rp) [] (take k l)) ++ drop k l.
Proof.
  induction k as [|k IH]; intros Hk.
  - by rewrite take_0, drop_0.
  - destruct (lookup_lt_is_Some_2 l k) as [x Hx]; [lia|].
    rewrite seq_S, foldl_app, IH by lia. simpl.
    rewrite (drop_S l x k Hx), (take_S_r l k x Hx), foldl_app. simpl.
    set (rp := foldl _ [] (take k l)).
    assert (length rp = k) as Hlen.
    { unfold rp. rewrite sinks_length, length_take. simpl. lia. }
    pose proof (insertion_inner_sink rp x (drop (S k) l)) as Hin.
    by rewrite Hlen in Hin.
Qed.

(** [insertionSort_func] computes [isort]. *)
Lemma insertionSort_func_isort l : insertionSort_func less l = isort cmp l.
Proof.
  unfold insertionSort_func, isort.
  destruct l as [|x l]; [done|].
  change (foldl (insertion_inner less) (x :: l) (seq 1 (length (x :: l) - 1)))
    with (foldl (insertion_inner less) (x :: l) (seq 0 (S (length (x :: l) - 1)))).
  replace (S (length (x :: l) - 1)) with (length (x :: l)) by (simpl; lia).
  rewrite insertion_rounds by done.
  by rewrite firstn_all, drop_all, (right_id_L [] (++)).
Qed.

End InsertionSort.

Section InsertionSortFacts.

Variable cmp : Summary -> Summary -> bool.

Lemma sink_perm x rp : sink cmp x rp ≡ₚ x :: rp.
Proof.
  induction rp as [|y rp IH]; simpl; [done|].
  destruct (cmp x y); [|done]. rewrite IH. apply Permutation_swap.
Qed.

Lemma sinks_perm l rp : foldl (fun rp x => sink cmp x rp) rp l ≡ₚ l ++ rp.
Proof.
  revert rp. induction l as [|x l IH]; intros rp; simpl; [done|].
  rewrite IH, sink_perm. by rewrite Permutation_middle.
Qed.

Lemma isort_perm l : isort cmp l ≡ₚ l.
Proof.
  unfold isort. rewrite reverse_Permutation, sinks_perm.
  by rewrite (right_id_L [] (++)).
Qed.

(** *** Elements that never compare below one another keep their order *)

Section Stable.

Variable P : Summary -> Prop.
Context `{!forall s, Decision (P s)}.
Hypothesis tie : forall x y, P x -> P y -> cmp x y = false.

Lemma sink_filter x rp :
  filter P (sink cmp x rp) = filter P [x] ++ filter P rp.
Proof.
  induction rp as [|y rp IH]; simpl.
  { by rewrite filter_nil, (right_id_L [] (++)). }
  destruct (cmp x y) eqn:Hxy; [|apply (filter_app P [x])].
  rewrite !filter_cons, IH. rewrite (filter_cons _ x), filter_nil.
  destruct (decide (P x)) as [Hx|]; [|done].
  destruct (decide (P y)) as [Hy|]; [|done].
  rewrite (tie _ _ Hx Hy) in Hxy. done.
Qed.

Lemma sinks_filter l rp :
  filter P (foldl (fun rp x => sink cmp x rp) rp l)
  = reverse (filter P l) ++ filter P rp.
Proof.
  revert rp. induction l as [|x l IH]; intros rp; simpl; [done|].
  rewrite IH, sink_filter, !filter_cons, filter_nil.
  destruct (decide (P x)); simpl; [|done].
  by rewrite reverse_cons, <- (assoc_L (++)).
Qed.

Lemma isort_filter l : filter P (isort cmp l) = filter P l.
Proof.
  unfold isort. rewrite filter_reverse, sinks_filter, filter_nil.
  by rewrite (right_id_L [] (++)), reverse_involutive.
Qed.

End Stable.

(** *** A comparator that answers [true] on a whole slice reverses it *)

Lemma sink_all_true x rp :
  (forall y, y ∈ rp -> cmp x y = true) -> sink cmp x rp = rp ++ [x].
Proof.
  induction rp as [|y rp IH]; intros Hall; simpl; [done|].
  rewrite (Hall y) by apply list_elem_of_here. f_equal.
  apply IH. intros z Hz. by apply Hall, list_elem_of_further.
Qed.

Lemma sinks_all_true l rp :
  (forall x y, x ∈ l -> y ∈ l ++ rp -> cmp x y = true) ->
  foldl (fun rp x => sink cmp x rp) rp l = rp ++ l.
Proof.
  revert rp. induction l as [|x l IH]; intros rp Hall; simpl.
  - by rewrite (right_id_L [] (++)).
  - rewrite sink_all_true.
    + rewrite IH; [by rewrite <- (assoc_L (++))|].
      intros x' y' Hx' Hy'. apply Hall; [by apply list_elem_of_further|].
      rewrite !elem_of_app, list_elem_of_singleton in Hy'.
      rewrite elem_of_app, elem_of_cons. tauto.
    + intros y Hy. apply Hall; [apply list_elem_of_here|].
      rewrite elem_of_app, elem_of_cons. tauto.
Qed.

Lemma isort_all_true l :
  (forall x y, x ∈ l -> y ∈ l -> cmp x y = true) -> isort cmp l = reverse l.
Proof.
  intros Hall. unfold isort. rewrite sinks_all_true; [done|].
  intros x y Hx Hy. rewrite (right_id_L [] (++)) in Hy. by apply Hall.
Qed.

(** *** A comparator that answers [false] on a whole slice leaves it alone *)

Lemma sinks_all_false l rp :
  (forall x y, x ∈ l -> y ∈ l ++ rp -> cmp x y = false) ->
  foldl (fun rp x => sink cmp x rp) rp l = reverse l ++ rp.
Proof.
  revert rp. induction l as [|x l IH]; intros rp Hall; simpl; [done|].
  assert (sink cmp x rp = x :: rp) as ->.
  { destruct rp as [|y rp]; simpl; [done|].
    rewrite Hall; [done|apply list_elem_of_here|].
    rewrite elem_of_app, !elem_of_cons. tauto. }
  rewrite IH; [by rewrite reverse_cons, <- (assoc_L (++))|].
  intros x' y' Hx' Hy'. apply Hall; [by apply list_elem_of_further|].
  rewrite !elem_of_app, elem_of_cons in Hy'.
  rewrite elem_of_app, elem_of_cons. tauto.
Qed.

Lemma isort_all_false l :
  (forall x y, x ∈ l -> y ∈ l -> cmp x y = false) -> isort cmp l = l.
Proof.
  intros Hall. unfold isort. rewrite sinks_all_false.
  - by rewrite (right_id_L [] (++)), reverse_involutive.
  - intros x y Hx Hy. rewrite (right_id_L [] (++)) in Hy. by apply Hall.
Qed.

(** *** What the insertion sort establishes between neighbours

    [x] stands directly before [y] in the result only if [y] stopped
    sinking at [x] or [x] sank past [y]. *)

Lemma sink_settled x rp :
  Sorted (flip (settled cmp)) rp -> Sorted (flip (settled cmp)) (sink cmp x rp).
Proof.
  induction rp as [|y rp IH]; intros Hs; simpl.
  - by repeat constructor.
  - destruct (cmp x y) eqn:Hxy.
    + apply Sorted_inv in Hs as [Hs Hhd]. constructor; [by apply IH|].
      destruct rp as [|z rp]; simpl.
      * constructor. by right.
      * destruct (cmp x z); constructor.
        -- by apply HdRel_inv in Hhd.
        -- by right.
    + constructor; [done|]. constructor. by left.
Qed.

Lemma sinks_settled l rp :
  Sorted (flip (settled cmp)) rp ->
  Sorted (flip (settled cmp)) (foldl (fun rp x => sink cmp x rp) rp l).
Proof.
  revert rp. induction l as [|x l IH]; intros rp Hs; simpl; [done|].
  by apply IH, sink_settled.
Qed.

Lemma isort_settled l : Sorted (settled cmp) (isort cmp l).
Proof.
  unfold isort. apply Sorted_reverse.
  apply (sinks_settled l []). constructor.
Qed.

End InsertionSortFacts.

(** ** The orders behind the comparators *)

Lemma ascii_compare_refl c : Ascii.compare c c = Eq.
Proof. unfold Ascii.compare. apply N.compare_refl. Qed.

Lemma string_compare_refl s : String.compare s s = Eq.
Proof. induction s as [|c s IH]; simpl; [done|]. by rewrite ascii_compare_refl. Qed.

Lemma string_compare_trans s1 s2 s3 :
  String.compare s1 s2 = Lt -> String.compare s2 s3 = Lt -> String.compare s1 s3 = Lt.
Proof.
  revert s2 s3. induction s1 as [|c1 s1 IH]; intros [|c2 s2] [|c3 s3]; simpl; try done.
  destruct (Ascii.compare c1 c2) eqn:H12; [| |done].
  - apply Ascii.compare_eq_iff in H12 as ->.
    destruct (Ascii.compare c2 c3); [apply IH|done|done].
  - destruct (Ascii.compare c2 c3) eqn:H23; [| |done].
    + apply Ascii.compare_eq_iff in H23 as <-. by rewrite H12.
    + unfold Ascii.compare in *. rewrite N.compare_lt_iff in *.
      intros _ _. assert (N_of_ascii c1 < N_of_ascii c3)%N as Hlt by lia.
      apply N.compare_lt_iff in Hlt. by rewrite Hlt.
Qed.

Lemma string_ltb_irrefl s : String.ltb s s = false.
Proof. unfold String.ltb. by rewrite string_compare_refl. Qed.

Lemma string_ltb_trans s1 s2 s3 :
  String.ltb s1 s2 = true -> String.ltb s2 s3 = true -> String.ltb s1 s3 = true.
Proof.
  unfold String.ltb. intros H12 H23.
  rewrite (string_compare_trans s1 s2 s3); [done| |].
  - by destruct (String.compare s1 s2).
  - by destruct (String.compare s2 s3).
Qed.

Lemma string_ltb_asym s1 s2 : String.ltb s1 s2 = true -> String.ltb s2 s1 = false.
Proof.
  unfold String.ltb. rewrite (String.compare_antisym s1 s2).
  by destruct (String.compare s2 s1).
Qed.

Lemma string_ltb_total s1 s2 :
  s1 <> s2 -> String.ltb s1 s2 = false -> String.ltb s2 s1 = true.
Proof.
  unfold String.ltb. intros Hne. rewrite (String.compare_antisym s2 s1).
  destruct (String.compare s1 s2) eqn:Hc; simpl; try done.
  by apply String.compare_eq_iff in Hc.
Qed.

(** No float is below itself, not-a-number included. *)
Lemma float_ltb_irrefl (x : float) : (x <? x)%float = false.
Proof.
  rewrite ltb_spec. unfold SFltb, SFcompare.
  destruct (Prim2SF x) as [s|s| |s m e]; [done|by destruct s|done|].
  change (PosDef.Pos.compare_cont Eq m m) with (Pos.compare m m).
  destruct s; rewrite Z.compare_refl, Pos.compare_refl; done.
Qed.

Lemma SFcompare_Lt_Gt f1 f2 :
  SFcompare f1 f2 = Some Lt -> SFcompare f2 f1 = Some Gt.
Proof.
  destruct f1 as [s1|s1| |s1 m1 e1], f2 as [s2|s2| |s2 m2 e2]; simpl;
    try done; try (by destruct s1, s2); try (by destruct s1); try (by destruct s2).
  destruct s1, s2; try done.
  - rewrite (Z.compare_antisym e1 e2).
    destruct (e1 ?= e2) eqn:He; simpl; try done.
    change (PosDef.Pos.compare_cont Eq m1 m2) with (Pos.compare m1 m2).
    change (PosDef.Pos.compare_cont Eq m2 m1) with (Pos.compare m2 m1).
    rewrite (Pos.compare_antisym m1 m2).
    by destruct (Pos.compare m1 m2).
  - rewrite (Z.compare_antisym e1 e2).
    destruct (e1 ?= e2) eqn:He; simpl; try done.
    change (PosDef.Pos.compare_cont Eq m1 m2) with (Pos.compare m1 m2).
    change (PosDef.Pos.compare_cont Eq m2 m1) with (Pos.compare m2 m1).
    rewrite (Pos.compare_antisym m1 m2).
    by destruct (Pos.compare m1 m2).
Qed.

(** Of two floats at most one is below the other. *)
Lemma float_ltb_asym (x y : float) : (x <? y)%float = true -> (y <? x)%float = false.
Proof.
  rewrite !ltb_spec. unfold SFltb.
  destruct (SFcompare (Prim2SF x) (Prim2SF y)) as [[| |]|] eqn:Hc; try done.
  by rewrite (SFcompare_Lt_Gt _ _ Hc).
Qed.

Lemma SFcompare_Lt_trans f1 f2 f3 :
  SFcompare f1 f2 = Some Lt -> SFcompare f2 f3 = Some Lt ->
  SFcompare f1 f3 = Some Lt.
Proof.
  destruct f1 as [s1|s1| |s1 m1 e1], f2 as [s2|s2| |s2 m2 e2],
    f3 as [s3|s3| |s3 m3 e3]; simpl; try done;
    try (destruct s1; try done); try (destruct s2; try done);
    try (destruct s3; try done).
  all: change (PosDef.Pos.compare_cont Eq ?a ?b) with (Pos.compare a b).
  all: destruct (Z.compare_spec e1 e2), (Z.compare_spec e2 e3),
         (Z.compare_spec e1 e3); simpl; try done; try lia.
  all: destruct (Pos.compare_spec m1 m2), (Pos.compare_spec m2 m3),
         (Pos.compare_spec m1 m3); simpl; try done; try lia.
Qed.

Lemma float_ltb_trans (x y z : float) :
  (x <? y)%float = true -> (y <? z)%float = true -> (x <? z)%float = true.
Proof.
  rewrite !ltb_spec. unfold SFltb.
  destruct (SFcompare (Prim2SF x) (Prim2SF y)) as [[| |]|] eqn:Hxy; try done.
  destruct (SFcompare (Prim2SF y) (Prim2SF z)) as [[| |]|] eqn:Hyz; try done.
  by rewrite (SFcompare_Lt_trans _ _ _ Hxy Hyz).
Qed.

(** ** The closures and their comparators *)

Lemma at_index_lookup data i x : data !! i = Some x -> at_index data i = x.
Proof. unfold at_index. by intros ->. Qed.

Ltac induced_by_lookup :=
  intros data i j x y Hi Hj;
  repeat match goal with |- context [directed] => unfold directed end;
  unfold less_filename, less_block, less_stmt, less_missing_blocks,
    less_missing_stmts;
  by rewrite ?(at_index_lookup _ _ _ Hi), ?(at_index_lookup _ _ _ Hj).

Lemma induced_filename : induced less_filename cmp_filename.
Proof. induced_by_lookup. Qed.
Lemma induced_block : induced less_block cmp_block.
Proof. induced_by_lookup. Qed.
Lemma induced_stmt : induced less_stmt cmp_stmt.
Proof. induced_by_lookup. Qed.
Lemma induced_missing_blocks : induced less_missing_blocks cmp_missing_blocks.
Proof. induced_by_lookup. Qed.
Lemma induced_missing_stmts : induced less_missing_stmts cmp_missing_stmts.
Proof. induced_by_lookup. Qed.

Lemma induced_directed reverse less cmp :
  induced less cmp -> induced (directed reverse less) (cmp_directed reverse cmp).
Proof.
  intros Hind data i j x y Hi Hj. unfold directed, cmp_directed.
  by rewrite (Hind data i j x y Hi Hj).
Qed.

Lemma less_of_mode_induced mode less :
  less_of_mode mode = Some less ->
  exists cmp, cmp_of_mode mode = Some cmp /\ induced less cmp.
Proof.
  unfold less_of_mode, cmp_of_mode.
  repeat case_match; intros; simplify_eq;
    eauto using induced_filename, induced_block, induced_stmt,
      induced_missing_blocks, induced_missing_stmts.
Qed.

(** The comparator of [stmt] never answers [true]: it compares
    [reports[j]] with itself. *)
Lemma cmp_stmt_false x y : cmp_stmt x y = false.
Proof. apply float_ltb_irrefl. Qed.

Lemma less_stmt_false reports i j : less_stmt reports i j = false.
Proof. apply float_ltb_irrefl. Qed.

(** ** The instances of the runtime meet the assumptions *)

Lemma range_up_spec : range_spec range_up.
Proof. by intros m. Qed.

Lemma range_down_spec : range_spec range_down.
Proof. intros m. unfold range_down. apply reverse_Permutation. Qed.

Lemma swap_neighbours_perm data j : swap data (S j) j ≡ₚ data.
Proof.
  unfold swap.
  destruct (data !! S j) as [x|] eqn:Hx; [|done].
  destruct (data !! j) as [y|] eqn:Hy; [|done].
  pose proof (take_drop_middle data j y Hy) as Hsplit.
  rewrite (drop_S data x (S j) Hx) in Hsplit.
  pose proof (swap_adjacent (take j data) x y (drop (S (S j)) data)) as Hswap.
  assert (length (take j data) = j) as Hlen.
  { rewrite length_take. apply lookup_lt_Some in Hy. lia. }
  rewrite Hlen, Hsplit in Hswap. unfold swap in Hswap.
  rewrite Hx, Hy in Hswap. rewrite Hswap.
  transitivity (take j data ++ y :: x :: drop (S (S j)) data);
    [|by rewrite Hsplit].
  apply Permutation_app_head, Permutation_swap.
Qed.

Lemma insertion_inner_perm less data j : insertion_inner less data j ≡ₚ data.
Proof.
  revert data. induction j as [|j IH]; intros data; simpl; [done|].
  destruct (less data (S j) j); [|done].
  by rewrite IH, swap_neighbours_perm.
Qed.

Lemma insertionSort_func_perm less data : insertionSort_func less data ≡ₚ data.
Proof.
  unfold insertionSort_func. generalize (seq 1 (length data - 1)) as rounds.
  intros rounds. revert data.
  induction rounds as [|i rounds IH]; intros data; simpl; [done|].
  by rewrite IH, insertion_inner_perm.
Qed.

Lemma sort_Slice_short_permutes : sort_permutes sort_Slice_short.
Proof. intros data less. apply insertionSort_func_perm. Qed.

Lemma sort_Slice_short_short : sort_short sort_Slice_short.
Proof. by intros data less _. Qed.

(** ** Checking the arguments of the sort *)

Lemma reverse_of_order_None order :
  reverse_of_order order = None <-> ~ valid_order order.
Proof.
  unfold reverse_of_order, valid_order.
  destruct (String.eqb_spec order "asc"), (String.eqb_spec order "desc");
    split; (done || tauto).
Qed.

Lemma less_of_mode_None mode : less_of_mode mode = None <-> ~ valid_mode mode.
Proof.
  unfold less_of_mode, valid_mode. rewrite !elem_of_cons, elem_of_nil.
  destruct (String.eqb_spec mode "filename"), (String.eqb_spec mode "block"),
    (String.eqb_spec mode "stmt"), (String.eqb_spec mode "missing-blocks"),
    (String.eqb_spec mode "missing-stmts"); split; (done || tauto).
Qed.

Lemma reverse_of_order_valid order :
  valid_order order -> exists reverse, reverse_of_order order = Some reverse.
Proof.
  intros Hv. destruct (reverse_of_order order) as [b|] eqn:Hr; [by exists b|].
  by apply reverse_of_order_None in Hr.
Qed.

Lemma less_of_mode_valid mode :
  valid_mode mode -> exists less, less_of_mode mode = Some less.
Proof.
  intros Hv. destruct (less_of_mode mode) as [f|] eqn:Hr; [by exists f|].
  by apply less_of_mode_None in Hr.
Qed.

Section SortResults.

Variable sort_Slice : list Summary -> less_func -> list Summary.

Lemma sortResults_bad_order reports mode order :
  ~ valid_order order ->
  sortResults sort_Slice reports mode order = (reports, Some err_order).
Proof.
  intros Hbad. unfold sortResults.
  by rewrite (proj2 (reverse_of_order_None order) Hbad).
Qed.

Lemma sortResults_bad_mode reports mode order :
  valid_order order -> ~ valid_mode mode ->
  sortResults sort_Slice reports mode order = (reports, Some err_mode).
Proof.
  intros [reverse Hrev]%reverse_of_order_valid Hbad. unfold sortResults.
  by rewrite Hrev, (proj2 (less_of_mode_None mode) Hbad).
Qed.

Lemma sortResults_ok reports mode order :
  valid_order order -> valid_mode mode ->
  exists reverse less,
    reverse_of_order order = Some reverse /\ less_of_mode mode = Some less /\
    sortResults sort_Slice reports mode order
    = (sort_Slice reports (directed reverse less), None).
Proof.
  intros [reverse Hrev]%reverse_of_order_valid [less Hless]%less_of_mode_valid.
  exists reverse, less. unfold sortResults. by rewrite Hrev, Hless.
Qed.

(** A successful sort hands back the result of [sort.Slice]. *)
Lemma sortResults_success reports mode order reports' :
  sortResults sort_Slice reports mode order = (reports', None) ->
  exists reverse less,
    reverse_of_order order = Some reverse /\ less_of_mode mode = Some less /\
    reports' = sort_Slice reports (directed reverse less).
Proof.
  unfold sortResults.
  destruct (reverse_of_order order) as [reverse|]; [|done].
  destruct (less_of_mode mode) as [less|]; [|done].
  intros [= <-]. by exists reverse, less.
Qed.

End SortResults.

(** ** Counting blocks in an accumulator *)

Lemma int_wrap_eq_iff x y :
  int_wrap x = int_wrap y <-> exists k, x = y + k * 2 ^ 64.
Proof.
  unfold int_wrap. split.
  - intros Heq. exists ((x + 2 ^ 63) / 2 ^ 64 - (y + 2 ^ 63) / 2 ^ 64).
    pose proof (Z.div_mod (x + 2 ^ 63) (2 ^ 64)).
    pose proof (Z.div_mod (y + 2 ^ 63) (2 ^ 64)). lia.
  - intros [k ->].
    replace (y + k * 2 ^ 64 + 2 ^ 63) with (y + 2 ^ 63 + k * 2 ^ 64) by lia.
    by rewrite Z_mod_plus_full.
Qed.

Lemma add_unfold a b :
  add a b =
  mkAccumulator (name a) (int_add (blocks a) 1) (int_add (stmts a) (cover.NumStmt b))
    (if covered b then int_add (coveredBlocks a) 1 else coveredBlocks a)
    (if covered b then int_add (coveredStmts a) (cover.NumStmt b) else coveredStmts a).
Proof. unfold add, covered. by destruct (0 <? cover.Count b). Qed.

Lemma counter_blocks : counter blocks (fun _ => 1).
Proof.
  split; [done|]. intros a b. rewrite add_unfold. simpl.
  apply int_wrap_idemp.
Qed.

Lemma counter_stmts : counter stmts cover.NumStmt.
Proof.
  split; [done|]. intros a b. rewrite add_unfold. simpl.
  apply int_wrap_idemp.
Qed.

Lemma counter_coveredBlocks :
  counter coveredBlocks (fun b => if covered b then 1 else 0).
Proof.
  split; [done|]. intros a b. rewrite add_unfold. simpl.
  destruct (covered b); [apply int_wrap_idemp|]. by rewrite Z.add_0_r.
Qed.

Lemma counter_coveredStmts :
  counter coveredStmts (fun b => if covered b then cover.NumStmt b else 0).
Proof.
  split; [done|]. intros a b. rewrite add_unfold. simpl.
  destruct (covered b); [apply int_wrap_idemp|]. by rewrite Z.add_0_r.
Qed.

(** The difference of two counters is a counter. *)
Lemma counter_minus f1 w1 f2 w2 :
  counter f1 w1 -> counter f2 w2 ->
  counter (fun a => f1 a - f2 a) (fun b => w1 b - w2 b).
Proof.
  intros [Hn1 Ha1] [Hn2 Ha2]. split.
  - intros n. by rewrite Hn1, Hn2.
  - intros a b. specialize (Ha1 a b). specialize (Ha2 a b).
    rewrite int_wrap_eq_iff in *.
    destruct Ha1 as [k1 Hk1], Ha2 as [k2 Hk2]. exists (k1 - k2). lia.
Qed.

Lemma counter_foldl field weight a bs :
  counter field weight ->
  int_wrap (field (foldl add a bs))
  = int_wrap (field a + total_weight weight bs).
Proof.
  intros [_ Hadd]. revert a.
  induction bs as [|b bs IH]; intros a; simpl.
  - unfold total_weight. simpl. by rewrite Z.add_0_r.
  - rewrite IH. unfold total_weight. simpl.
    rewrite <- int_wrap_add_l, Hadd, int_wrap_add_l. f_equal. lia.
Qed.

Lemma name_add a b : name (add a b) = name a.
Proof. by rewrite add_unfold. Qed.

Lemma name_foldl_add a bs : name (foldl add a bs) = name a.
Proof.
  revert a. induction bs as [|b bs IH]; intros a; simpl; [done|].
  by rewrite IH, name_add.
Qed.

Lemma ranged_new n : ranged (accumulator_new n).
Proof. by repeat split. Qed.

Lemma ranged_add a b : ranged a -> ranged (add a b).
Proof.
  intros (Hb & Hs & Hcb & Hcs). rewrite add_unfold. unfold ranged, int_add. simpl.
  destruct (covered b); rewrite ?int_wrap_idemp; done.
Qed.

Lemma ranged_foldl_add a bs : ranged a -> ranged (foldl add a bs).
Proof.
  revert a. induction bs as [|b bs IH]; intros a Ha; simpl; [done|].
  by apply IH, ranged_add.
Qed.

Lemma add_blocks_foldl total fileCover bs :
  add_blocks total fileCover bs = (foldl add total bs, foldl add fileCover bs).
Proof.
  unfold add_blocks. revert total fileCover.
  induction bs as [|b bs IH]; intros total fileCover; simpl; [done|].
  by rewrite IH.
Qed.

(** ** Exclusions *)

Lemma skipped_true fileName exclusions :
  skipped fileName exclusions = true <->
  exists exclusion, exclusion ∈ exclusions /\ strings_HasPrefix fileName exclusion = true.
Proof.
  unfold skipped.
  assert (forall skip,
    foldl (fun skip exclusion =>
             if strings_HasPrefix fileName exclusion then true else skip)
          skip exclusions = true <->
    skip = true \/
    exists exclusion, exclusion ∈ exclusions /\
                      strings_HasPrefix fileName exclusion = true) as Hgen.
  { induction exclusions as [|e es IH]; intros skip; simpl.
    - split; [by left|]. intros [->|(e & He & _)]; [done|]. by apply elem_of_nil in He.
    - rewrite IH. split.
      + intros [Hs|(e' & He' & Hp)].
        * destruct (strings_HasPrefix fileName e) eqn:Hp; [|by left].
          right. exists e. split; [apply list_elem_of_here|done].
        * right. exists e'. split; [by apply list_elem_of_further|done].
      + intros [->|(e' & He' & Hp)].
        * left. by destruct (strings_HasPrefix fileName e).
        * apply elem_of_cons in He' as [->|He'].
          -- left. by rewrite Hp.
          -- right. by exists e'. }
  rewrite Hgen. split; [by intros [?|?]|by right].
Qed.

Lemma skipped_false fileName exclusions :
  skipped fileName exclusions = false <->
  forall exclusion, exclusion ∈ exclusions ->
                    strings_HasPrefix fileName exclusion = false.
Proof.
  split.
  - intros Hs e He. destruct (strings_HasPrefix fileName e) eqn:Hp; [|done].
    assert (skipped fileName exclusions = true) as Ht
      by (apply skipped_true; eauto).
    congruence.
  - intros Hall. destruct (skipped fileName exclusions) eqn:Hs; [|done].
    apply skipped_true in Hs as (e & He & Hp). rewrite (Hall e He) in Hp. done.
Qed.

Lemma strings_HasPrefix_empty s : strings_HasPrefix s "" = true.
Proof. unfold strings_HasPrefix. by destruct s. Qed.

(** ** The invariant of the loop of [GenerateReport] *)

Lemma sum_perm (l1 l2 : list Z) : l1 ≡ₚ l2 -> foldr Z.add 0 l1 = foldr Z.add 0 l2.
Proof. induction 1; simpl; lia. Qed.

Lemma map_total_empty field : map_total field ∅ = 0.
Proof. unfold map_total. by rewrite map_to_list_empty. Qed.

Lemma map_total_insert field (m : gmap string accumulator) k v :
  map_total field (<[k := v]> m)
  = map_total field m - from_option field 0 (m !! k) + field v.
Proof.
  unfold map_total. destruct (m !! k) as [o|] eqn:Hk; simpl.
  - rewrite <- (insert_delete_eq m k v).
    rewrite (sum_perm _ _ (fmap_Permutation _ _ _
               (map_to_list_insert (delete k m) k v (lookup_delete_eq m k)))).
    rewrite <- (sum_perm _ _ (fmap_Permutation (fun kv => field kv.2) _ _
                  (map_to_list_delete m k o Hk))).
    csimpl. lia.
  - rewrite (sum_perm _ _ (fmap_Permutation _ _ _ (map_to_list_insert m k v Hk))).
    csimpl. lia.
Qed.

Lemma accumulated_init exclusions : accumulated exclusions (accumulator_new "Total", ∅).
Proof.
  split; simpl; [apply ranged_new|done|by intros k a|].
  intros field weight [Hnew _]. by rewrite Hnew, map_total_empty.
Qed.

Lemma accumulated_visit root exclusions st profile :
  accumulated exclusions st ->
  accumulated exclusions (visit_profile root exclusions st profile).
Proof.
  intros [Hr Hn Hf Hc]. unfold visit_profile.
  set (fileName := display_name root (cover.FileName profile)).
  destruct (skipped fileName exclusions) eqn:Hskip; [by split|].
  rewrite add_blocks_foldl. simpl.
  set (fileCover := default (accumulator_new fileName) (st.2 !! fileName)).
  assert (ranged fileCover /\ name fileCover = fileName) as [Hfr Hfn].
  { unfold fileCover. destruct (st.2 !! fileName) as [a|] eqn:Ha; simpl.
    - by destruct (Hf _ _ Ha) as (? & ? & _).
    - split; [apply ranged_new|done]. }
  split; simpl.
  - by apply ranged_foldl_add.
  - by rewrite name_foldl_add.
  - intros k a. destruct (decide (k = fileName)) as [->|Hne].
    + rewrite lookup_insert_eq. intros [= <-].
      split; [by apply ranged_foldl_add|]. by rewrite name_foldl_add.
    + rewrite lookup_insert_ne by done. apply Hf.
  - intros field weight Hctr.
    rewrite map_total_insert.
    assert (from_option field 0 (st.2 !! fileName) = field fileCover) as ->.
    { unfold fileCover. destruct (st.2 !! fileName); simpl; [done|].
      symmetry. apply Hctr. }
    pose proof (counter_foldl field weight st.1 (cover.Blocks profile) Hctr) as Ht.
    pose proof (counter_foldl field weight fileCover (cover.Blocks profile) Hctr) as Hfc.
    specialize (Hc field weight Hctr).
    rewrite int_wrap_eq_iff in *.
    destruct Ht as [k1 Hk1], Hfc as [k2 Hk2], Hc as [k3 Hk3].
    exists (k1 + k3 - k2). lia.
Qed.

Lemma accumulated_foldl root exclusions st profiles :
  accumulated exclusions st ->
  accumulated exclusions (foldl (visit_profile root exclusions) st profiles).
Proof.
  revert st. induction profiles as [|p ps IH]; intros st Hst; simpl; [done|].
  by apply IH, accumulated_visit.
Qed.

Lemma accumulated_accumulate root exclusions profiles :
  accumulated exclusions (accumulate root exclusions profiles).
Proof. apply accumulated_foldl, accumulated_init. Qed.

(** ** Excluded profiles leave the state alone *)

Lemma excluded_true root exclusions profile :
  excluded root exclusions profile = true <->
  exists exclusion,
    exclusion ∈ exclusions /\
    strings_HasPrefix (display_name root (cover.FileName profile)) exclusion = true.
Proof.
  unfold excluded. rewrite existsb_exists.
  split; intros (e & He & Hp); exists e; (split; [by apply list_elem_of_In|done]).
Qed.

Lemma skipped_excluded root exclusions profile :
  skipped (display_name root (cover.FileName profile)) exclusions
  = excluded root exclusions profile.
Proof.
  apply eq_true_iff_eq. by rewrite skipped_true, excluded_true.
Qed.

Lemma visit_excluded root exclusions st profile :
  excluded root exclusions profile = true ->
  visit_profile root exclusions st profile = st.
Proof. rewrite <- skipped_excluded. unfold visit_profile. by intros ->. Qed.

Lemma foldl_visit_retained root exclusions st profiles :
  foldl (visit_profile root exclusions) st (retained root exclusions profiles)
  = foldl (visit_profile root exclusions) st profiles.
Proof.
  revert st. induction profiles as [|p ps IH]; intros st; simpl; [done|].
  destruct (excluded root exclusions p) eqn:Hex; simpl.
  - by rewrite IH, visit_excluded.
  - apply IH.
Qed.

Lemma accumulate_retained root exclusions profiles :
  accumulate root exclusions (retained root exclusions profiles)
  = accumulate root exclusions profiles.
Proof. apply foldl_visit_retained. Qed.

Lemma accumulate_all_excluded root exclusions profiles :
  (forall profile, profile ∈ profiles -> excluded root exclusions profile = true) ->
  accumulate root exclusions profiles = (accumulator_new "Total", ∅).
Proof.
  unfold accumulate. generalize (accumulator_new "Total", ∅ : gmap string accumulator).
  induction profiles as [|p ps IH]; intros st Hall; simpl; [done|].
  rewrite visit_excluded by apply Hall, list_elem_of_here.
  apply IH. intros q Hq. by apply Hall, list_elem_of_further.
Qed.

(** ** The report *)

Lemma int_wrap_sum_wrapped {A} (f g : A -> Z) (l : list A) :
  (forall x, x ∈ l -> g x = int_wrap (f x)) ->
  int_wrap (foldr Z.add 0 (g <$> l)) = int_wrap (foldr Z.add 0 (f <$> l)).
Proof.
  induction l as [|x l IH]; intros Hg; csimpl; [done|].
  rewrite (Hg x) by apply list_elem_of_here.
  rewrite int_wrap_add_l, <- int_wrap_add_r, IH, int_wrap_add_r; [done|].
  intros y Hy. by apply Hg, list_elem_of_further.
Qed.

Section ReportFacts.

Variable ParseProfiles : string -> list cover.Profile * option error.
Variable map_range : gmap string accumulator -> list (string * accumulator).
Variable sort_Slice : list Summary -> less_func -> list Summary.

Lemma GenerateReport_parsed coverprofile root exclusions sortBy order profiles :
  ParseProfiles coverprofile = (profiles, None) ->
  GenerateReport ParseProfiles map_range sort_Slice
    coverprofile root exclusions sortBy order
  = makeReport map_range sort_Slice
      (accumulate root exclusions profiles).1
      (accumulate root exclusions profiles).2 sortBy order.
Proof. intros Hp. unfold GenerateReport. by rewrite Hp. Qed.

Lemma GenerateReport_unparsed coverprofile root exclusions sortBy order profiles err :
  ParseProfiles coverprofile = (profiles, Some err) ->
  GenerateReport ParseProfiles map_range sort_Slice
    coverprofile root exclusions sortBy order
  = (Report_zero, Some (err_coverprofile err)).
Proof. intros Hp. unfold GenerateReport. by rewrite Hp. Qed.

(** A call that returns no error returns the summary of [total] and a
    rearrangement of the summaries of the map. *)
Lemma GenerateReport_success coverprofile root exclusions sortBy order report :
  range_spec map_range -> sort_permutes sort_Slice ->
  GenerateReport ParseProfiles map_range sort_Slice
    coverprofile root exclusions sortBy order = (report, None) ->
  exists profiles,
    ParseProfiles coverprofile = (profiles, None) /\
    Total report = results (accumulate root exclusions profiles).1 /\
    Files report ≡ₚ
      (fun kv => results kv.2)
        <$> map_to_list (accumulate root exclusions profiles).2.
Proof.
  intros Hrange Hsort Hgen. unfold GenerateReport in Hgen.
  destruct (ParseProfiles coverprofile) as [profiles [err|]] eqn:Hp; [done|].
  exists profiles. split; [done|]. unfold makeReport in Hgen.
  destruct (sortResults _ _ _ _) as [fileReports [err|]] eqn:Hs; [done|].
  injection Hgen as <-. simpl. split; [done|].
  apply sortResults_success in Hs as (reverse & less & _ & _ & ->).
  rewrite (Hsort _ _). change (map ?f ?l) with (f <$> l).
  apply fmap_Permutation, Hrange.
Qed.

(** The summary of [total] agrees with the sum over the files on every
    quantity that is counted block by block. *)
Lemma Total_counter field weight (proj : Summary -> Z)
    coverprofile root exclusions sortBy order report :
  range_spec map_range -> sort_permutes sort_Slice ->
  counter field weight ->
  (forall a, ranged a -> proj (results a) = int_wrap (field a)) ->
  GenerateReport ParseProfiles map_range sort_Slice
    coverprofile root exclusions sortBy order = (report, None) ->
  proj (Total report) = int_sum (proj <$> Files report).
Proof.
  intros Hrange Hsort Hctr Hproj Hgen.
  destruct (GenerateReport_success _ _ _ _ _ _ Hrange Hsort Hgen)
    as (profiles & _ & -> & Hfiles).
  pose proof (accumulated_accumulate root exclusions profiles) as [Hr _ Hf Hc].
  rewrite (int_sum_perm _ _ (fmap_Permutation proj _ _ Hfiles)).
  rewrite int_sum_wrap, <- list_fmap_compose.
  rewrite (int_wrap_sum_wrapped (fun kv => field kv.2)).
  - rewrite Hproj by done. apply (Hc field weight Hctr).
  - intros [k a] Hka. simpl. apply Hproj.
    apply elem_of_map_to_list in Hka. by destruct (Hf k a Hka).
Qed.

End ReportFacts.

(** C4. In the report of a successful call of [GenerateReport], each of the
    four counts of the Total summary (Blocks, Stmts, MissingBlocks and
    MissingStmts) is the sum, in Go's [int], of that count over the per-file
    summaries; excluded files are in neither. *)
Theorem GenerateReport_total_is_sum
    (ParseProfiles : string -> list cover.Profile * option error)
    (map_range : gmap string accumulator -> list (string * accumulator))
    (sort_Slice : list Summary -> less_func -> list Summary)
    (coverprofile root : string) (exclusions : list string)
    (sortBy order : string) (report : Report) :
  range_spec map_range -> sort_permutes sort_Slice ->
  GenerateReport ParseProfiles map_range sort_Slice
    coverprofile root exclusions sortBy order = (report, None) ->
  Blocks (Total report) = int_sum (Blocks <$> Files report) /\
  Stmts (Total report) = int_sum (Stmts <$> Files report) /\
  MissingBlocks (Total report) = int_sum (MissingBlocks <$> Files report) /\
  MissingStmts (Total report) = int_sum (MissingStmts <$> Files report).
Proof.
  intros Hrange Hsort Hgen. repeat split.
  - eapply (Total_counter _ _ _ blocks); eauto using counter_blocks.
    by intros a (-> & _).
  - eapply (Total_counter _ _ _ stmts); eauto using counter_stmts.
    by intros a (_ & -> & _).
  - eapply (Total_counter _ _ _ (fun a => blocks a - coveredBlocks a));
      eauto using counter_minus, counter_blocks, counter_coveredBlocks.
  - eapply (Total_counter _ _ _ (fun a => stmts a - coveredStmts a));
      eauto using counter_minus, counter_stmts, counter_coveredStmts.
Qed.

Lemma GenerateReport_total_is_sum_witness :
  let report :=
    (GenerateReport (parse_const (two_files, None)) range_down sort_Slice_short
       "cover.out" "" ["b.go"] "missing-stmts" "desc").1 in
  Blocks (Total report) = int_sum (Blocks <$> Files report) /\
  Stmts (Total report) = int_sum (Stmts <$> Files report) /\
  MissingBlocks (Total report) = int_sum (MissingBlocks <$> Files report) /\
  MissingStmts (Total report) = int_sum (MissingStmts <$> Files report).
Proof.
  apply (GenerateReport_total_is_sum (parse_const (two_files, None)) range_down
           sort_Slice_short "cover.out" "" ["b.go"] "missing-stmts" "desc").
  - apply range_down_spec.
  - apply sort_Slice_short_permutes.
  - vm_compute. reflexivity.
Defined.

(** C5. A file whose display name starts with one of the exclusions has no
    summary in [Files], and its blocks reach no accumulator: the call returns
    what it returns on the profiles that are left without the excluded ones,
    [Total] included. *)
Theorem GenerateReport_exclusions
    (ParseProfiles ParseRetained : string -> list cover.Profile * option error)
    (map_range : gmap string accumulator -> list (string * accumulator))
    (sort_Slice : list Summary -> less_func -> list Summary)
    (coverprofile root : string) (exclusions : list string)
    (sortBy order : string) (profiles : list cover.Profile) :
  range_spec map_range -> sort_permutes sort_Slice ->
  ParseProfiles coverprofile = (profiles, None) ->
  ParseRetained coverprofile = (retained root exclusions profiles, None) ->
  let outcome :=
    GenerateReport ParseProfiles map_range sort_Slice
      coverprofile root exclusions sortBy order in
  (forall profile exclusion summary,
     profile ∈ profiles -> exclusion ∈ exclusions ->
     strings_HasPrefix (display_name root (cover.FileName profile)) exclusion = true ->
     summary ∈ Files outcome.1 ->
     Name summary <> display_name root (cover.FileName profile)) /\
  GenerateReport ParseRetained map_range sort_Slice
    coverprofile root exclusions sortBy order = outcome.
Proof.
  intros Hrange Hsort Hparse Hretained outcome. split.
  - intros profile exclusion summary _ Hex Hprefix Hin Hname.
    destruct outcome as [report [err|]] eqn:Hout.
    + unfold outcome in Hout. rewrite (GenerateReport_parsed _ _ _ _ _ _ _ _ _ Hparse) in Hout.
      unfold makeReport in Hout.
      destruct (sortResults _ _ _ _) as [fileReports [err'|]]; [|done].
      injection Hout as <- _. simpl in Hin. by apply elem_of_nil in Hin.
    + destruct (GenerateReport_success _ _ _ _ _ _ _ _ _ Hrange Hsort Hout)
        as (profiles' & Hparse' & _ & Hfiles).
      rewrite Hparse in Hparse'. injection Hparse' as <-.
      simpl in Hin. rewrite Hfiles in Hin.
      apply list_elem_of_fmap in Hin as ([k a] & -> & Hka).
      apply elem_of_map_to_list in Hka. simpl in Hname.
      destruct (accumulated_accumulate root exclusions profiles) as [_ _ Hf _].
      destruct (Hf k a Hka) as (_ & Hk & Hskip).
      rewrite skipped_false in Hskip. specialize (Hskip exclusion Hex).
      congruence.
  - unfold outcome.
    rewrite (GenerateReport_parsed _ _ _ _ _ _ _ _ _ Hparse).
    rewrite (GenerateReport_parsed _ _ _ _ _ _ _ _ _ Hretained).
    by rewrite accumulate_retained.
Qed.

Lemma GenerateReport_exclusions_witness :
  let outcome :=
    GenerateReport (parse_const (two_files, None)) range_up sort_Slice_short
      "cover.out" "" ["a."] "filename" "asc" in
  (forall profile exclusion summary,
     profile ∈ two_files -> exclusion ∈ ["a."] ->
     strings_HasPrefix (display_name "" (cover.FileName profile)) exclusion = true ->
     summary ∈ Files outcome.1 ->
     Name summary <> display_name "" (cover.FileName profile)) /\
  GenerateReport (parse_const (retained "" ["a."] two_files, None))
    range_up sort_Slice_short "cover.out" "" ["a."] "filename" "asc" = outcome.
Proof.
  apply (GenerateReport_exclusions (parse_const (two_files, None))
           (parse_const (retained "" ["a."] two_files, None))
           range_up sort_Slice_short "cover.out" "" ["a."] "filename" "asc"
           two_files).
  - apply range_up_spec.
  - apply sort_Slice_short_permutes.
  - reflexivity.
  - reflexivity.
Defined.

(** C6. With a direction other than asc and desc, or a key other than the
    five recognised ones, [GenerateReport] returns an error and the zero
    report, never a populated one; once the profile has been parsed the
    error is that of the direction if the direction is wrong, whatever the
    key, and that of the key otherwise. *)
Theorem GenerateReport_invalid_argument
    (ParseProfiles : string -> list cover.Profile * option error)
    (map_range : gmap string accumulator -> list (string * accumulator))
    (sort_Slice : list Summary -> less_func -> list Summary)
    (coverprofile root : string) (exclusions : list string)
    (sortBy order : string) :
  ~ valid_order order \/ ~ valid_mode sortBy ->
  let outcome :=
    GenerateReport ParseProfiles map_range sort_Slice
      coverprofile root exclusions sortBy order in
  outcome.1 = Report_zero /\ outcome.2 <> None /\
  ((ParseProfiles coverprofile).2 = None ->
   outcome.2 = Some (if decide (valid_order order) then err_mode else err_order)).
Proof.
  intros Hbad outcome. unfold outcome, GenerateReport.
  destruct (ParseProfiles coverprofile) as [profiles [err|]]; [done|].
  unfold makeReport. simpl. destruct (decide (valid_order order)) as [Hord|Hord].
  - destruct Hbad as [?|Hmode]; [done|].
    by rewrite sortResults_bad_mode.
  - by rewrite sortResults_bad_order.
Qed.

Lemma GenerateReport_invalid_argument_witness :
  let outcome :=
    GenerateReport (parse_const (two_files, None)) range_up sort_Slice_short
      "cover.out" "" [] "bogus" "bogus" in
  outcome.1 = Report_zero /\ outcome.2 <> None /\
  ((parse_const (two_files, None) "cover.out").2 = None ->
   outcome.2 = Some (if decide (valid_order "bogus") then err_mode else err_order)).
Proof.
  apply (GenerateReport_invalid_argument (parse_const (two_files, None)) range_up
           sort_Slice_short "cover.out" "" [] "bogus" "bogus").
  left. vm_compute. intros [H|H]; discriminate H.
Defined.

(** C9, as the code has it. When the parser fails, [GenerateReport] returns
    the zero report and a new error whose text is the parser's, quoted after
    "Invalid coverprofile: "; the map is not ranged over and nothing is
    sorted, so the outcome is the same for every runtime. *)
Theorem GenerateReport_parse_error
    (ParseProfiles : string -> list cover.Profile * option error)
    (map_range : gmap string accumulator -> list (string * accumulator))
    (sort_Slice : list Summary -> less_func -> list Summary)
    (coverprofile root : string) (exclusions : list string)
    (sortBy order : string) (profiles : list cover.Profile) (err : error) :
  ParseProfiles coverprofile = (profiles, Some err) ->
  GenerateReport ParseProfiles map_range sort_Slice
    coverprofile root exclusions sortBy order
  = (Report_zero, Some (errors_New ("Invalid coverprofile: '" +:+ Error err +:+ "'"))).
Proof. apply GenerateReport_unparsed. Qed.

Lemma GenerateReport_parse_error_witness :
  GenerateReport (parse_const ([], Some no_such_file)) range_up sort_Slice_short
    "cover.out" "" [] "filename" "asc"
  = (Report_zero,
     Some (errors_New ("Invalid coverprofile: '" +:+ Error no_such_file +:+ "'"))).
Proof.
  apply (GenerateReport_parse_error (parse_const ([], Some no_such_file)) range_up
           sort_Slice_short "cover.out" "" [] "filename" "asc" [] no_such_file).
  reflexivity.
Defined.

(** C9, as the claim has it: the error of the call is not the error of the
    parser. *)
Lemma GenerateReport_parse_error_changed :
  (parse_const ([], Some no_such_file) "cover.out").2 = Some no_such_file /\
  (GenerateReport (parse_const ([], Some no_such_file)) range_up sort_Slice_short
     "cover.out" "" [] "filename" "asc").2
  <> Some no_such_file.
Proof. split; [reflexivity|]. vm_compute. discriminate. Qed.

(** C10. With the empty string among the exclusions, a call on a parsed
    profile with valid sort arguments returns no error, no file summary and
    a Total whose four counts are zero. *)
Theorem GenerateReport_empty_exclusion
    (ParseProfiles : string -> list cover.Profile * option error)
    (map_range : gmap string accumulator -> list (string * accumulator))
    (sort_Slice : list Summary -> less_func -> list Summary)
    (coverprofile root : string) (exclusions : list string)
    (sortBy order : string) (profiles : list cover.Profile) :
  range_spec map_range -> sort_permutes sort_Slice ->
  ParseProfiles coverprofile = (profiles, None) ->
  valid_order order -> valid_mode sortBy ->
  "" ∈ exclusions ->
  let outcome :=
    GenerateReport ParseProfiles map_range sort_Slice
      coverprofile root exclusions sortBy order in
  outcome.2 = None /\ Files outcome.1 = [] /\
  Blocks (Total outcome.1) = 0 /\ Stmts (Total outcome.1) = 0 /\
  MissingBlocks (Total outcome.1) = 0 /\ MissingStmts (Total outcome.1) = 0.
Proof.
  intros Hrange Hsort Hparse Horder Hmode Hempty outcome. unfold outcome.
  rewrite (GenerateReport_parsed _ _ _ _ _ _ _ _ _ Hparse).
  rewrite accumulate_all_excluded.
  - unfold makeReport. simpl.
    assert (map_range ∅ = []) as ->.
    { apply Permutation_nil_r. rewrite (Hrange ∅). by rewrite map_to_list_empty. }
    change (map _ []) with (@nil Summary).
    destruct (sortResults_ok sort_Slice [] sortBy order Horder Hmode)
      as (reverse & less & _ & _ & ->).
    simpl. repeat split.
    apply Permutation_nil_r, Hsort.
  - intros profile _. apply excluded_true. exists "".
    split; [done|apply strings_HasPrefix_empty].
Qed.

Lemma GenerateReport_empty_exclusion_witness :
  let outcome :=
    GenerateReport (parse_const (two_files, None)) range_up sort_Slice_short
      "cover.out" "" ["vendor"; ""] "block" "desc" in
  outcome.2 = None /\ Files outcome.1 = [] /\
  Blocks (Total outcome.1) = 0 /\ Stmts (Total outcome.1) = 0 /\
  MissingBlocks (Total outcome.1) = 0 /\ MissingStmts (Total outcome.1) = 0.
Proof.
  apply (GenerateReport_empty_exclusion (parse_const (two_files, None)) range_up
           sort_Slice_short "cover.out" "" ["vendor"; ""] "block" "desc" two_files).
  - apply range_up_spec.
  - apply sort_Slice_short_permutes.
  - reflexivity.
  - right. reflexivity.
  - apply (bool_decide_unpack _). vm_compute. exact I.
  - apply (bool_decide_unpack _). vm_compute. exact I.
Defined.

(** ** Finalizing an accumulator *)

Lemma total_weight_cons weight b bs :
  total_weight weight (b :: bs) = weight b + total_weight weight bs.
Proof. done. Qed.

Lemma total_weight_ones bs : total_weight (fun _ => 1) bs = Z.of_nat (length bs).
Proof.
  induction bs as [|b bs IH]; [done|].
  rewrite total_weight_cons, IH. simpl length. lia.
Qed.

Lemma total_weight_bounds (w1 w2 : cover.ProfileBlock -> Z) bs :
  Forall (fun b => 0 <= w1 b <= w2 b) bs ->
  0 <= total_weight w1 bs <= total_weight w2 bs.
Proof.
  induction 1 as [|b bs Hb _ IH]; [done|]. rewrite !total_weight_cons. lia.
Qed.

Lemma total_weight_minus (w1 w2 : cover.ProfileBlock -> Z) bs :
  total_weight (fun b => w1 b - w2 b) bs = total_weight w1 bs - total_weight w2 bs.
Proof.
  induction bs as [|b bs IH]; [done|]. rewrite !total_weight_cons, IH. lia.
Qed.

(** Without overflow a counter holds the mathematical total. *)
Lemma counter_exact field weight n bs :
  counter field weight ->
  int_wrap (field (foldl add (accumulator_new n) bs))
  = field (foldl add (accumulator_new n) bs) ->
  int_min <= total_weight weight bs <= int_max ->
  field (foldl add (accumulator_new n) bs) = total_weight weight bs.
Proof.
  intros Hctr Hranged Hsmall.
  rewrite <- Hranged, (counter_foldl field weight _ _ Hctr).
  rewrite (counter_new _ _ Hctr). by apply int_wrap_small.
Qed.

(** C8, as the code has it. [add] moves the block count by one and the
    statement count by the statement count of the block, and the covered
    counts in the same way when the execution count of the block is
    positive, and only then. The summary of an accumulator that has been fed
    the blocks [bs] carries its block and statement counts, and MissingBlocks
    and MissingStmts are the differences to the covered counts in Go's [int].
    MissingBlocks is the mathematical difference and is not negative, the
    number of blocks being an [int]; MissingStmts is the mathematical
    difference and is not negative when the statement counts are not
    negative and add up within Go's [int]. *)
Theorem results_missing (n : string) (bs : list cover.ProfileBlock) :
  let a := foldl add (accumulator_new n) bs in
  (forall a' b,
     blocks (add a' b) = int_add (blocks a') 1 /\
     stmts (add a' b) = int_add (stmts a') (cover.NumStmt b) /\
     coveredBlocks (add a' b)
     = (if 0 <? cover.Count b then int_add (coveredBlocks a') 1
        else coveredBlocks a') /\
     coveredStmts (add a' b)
     = (if 0 <? cover.Count b then int_add (coveredStmts a') (cover.NumStmt b)
        else coveredStmts a')) /\
  Blocks (results a) = blocks a /\
  Stmts (results a) = stmts a /\
  MissingBlocks (results a) = int_sub (Blocks (results a)) (coveredBlocks a) /\
  MissingStmts (results a) = int_sub (Stmts (results a)) (coveredStmts a) /\
  (Z.of_nat (length bs) <= int_max ->
   blocks a = Z.of_nat (length bs) /\
   coveredBlocks a = total_weight (fun b => if 0 <? cover.Count b then 1 else 0) bs /\
   MissingBlocks (results a) = Blocks (results a) - coveredBlocks a /\
   0 <= MissingBlocks (results a)) /\
  (Forall (fun b => 0 <= cover.NumStmt b) bs ->
   total_weight cover.NumStmt bs <= int_max ->
   stmts a = total_weight cover.NumStmt bs /\
   coveredStmts a
   = total_weight (fun b => if 0 <? cover.Count b then cover.NumStmt b else 0) bs /\
   MissingStmts (results a) = Stmts (results a) - coveredStmts a /\
   0 <= MissingStmts (results a)).
Proof.
  intros a. split.
  { intros a' b. by rewrite add_unfold. }
  do 4 (split; [done|]).
  destruct (ranged_foldl_add (accumulator_new n) bs (ranged_new n))
    as (Hrb & Hrs & Hrcb & Hrcs). fold a in Hrb, Hrs, Hrcb, Hrcs.
  assert (int_min < 0) as Hmin by done.
  split.
  - intros Hlen.
    pose proof (total_weight_ones bs) as Hones.
    assert (0 <= total_weight (fun b => if covered b then 1 else 0) bs
            <= total_weight (fun _ => 1) bs) as Hcb.
    { apply total_weight_bounds, Forall_forall. intros b _. destruct (covered b); lia. }
    assert (blocks a = Z.of_nat (length bs)) as Hb.
    { rewrite <- Hones. apply counter_exact; [apply counter_blocks|done|lia]. }
    assert (coveredBlocks a = total_weight (fun b => if covered b then 1 else 0) bs)
      as Hc.
    { apply counter_exact; [apply counter_coveredBlocks|done|lia]. }
    assert (MissingBlocks (results a) = blocks a - coveredBlocks a) as Hmb.
    { simpl. unfold int_sub. apply int_wrap_small. lia. }
    repeat split; try done; simpl Blocks; lia.
  - intros Hpos Hsum.
    assert (0 <= total_weight (fun b => if covered b then cover.NumStmt b else 0) bs
            <= total_weight cover.NumStmt bs) as Hcs.
    { apply total_weight_bounds. eapply Forall_impl; [exact Hpos|].
      intros b Hb. simpl in Hb. destruct (covered b); lia. }
    assert (stmts a = total_weight cover.NumStmt bs) as Hs.
    { apply counter_exact; [apply counter_stmts|done|lia]. }
    assert (coveredStmts a
            = total_weight (fun b => if covered b then cover.NumStmt b else 0) bs)
      as Hd.
    { apply counter_exact; [apply counter_coveredStmts|done|lia]. }
    assert (MissingStmts (results a) = stmts a - coveredStmts a) as Hms.
    { simpl. unfold int_sub. apply int_wrap_small. lia. }
    repeat split; try done; simpl Stmts; lia.
Qed.

Lemma results_missing_witness :
  let bs := [block 3 1; block 2 0] in
  let a := foldl add (accumulator_new "a.go") bs in
  (blocks a = Z.of_nat (length bs) /\
   coveredBlocks a = total_weight (fun b => if 0 <? cover.Count b then 1 else 0) bs /\
   MissingBlocks (results a) = Blocks (results a) - coveredBlocks a /\
   0 <= MissingBlocks (results a)) /\
  (stmts a = total_weight cover.NumStmt bs /\
   coveredStmts a
   = total_weight (fun b => if 0 <? cover.Count b then cover.NumStmt b else 0) bs /\
   MissingStmts (results a) = Stmts (results a) - coveredStmts a /\
   0 <= MissingStmts (results a)).
Proof.
  destruct (results_missing "a.go" [block 3 1; block 2 0])
    as (_ & _ & _ & _ & _ & Hblocks & Hstmts).
  split.
  - apply Hblocks. vm_compute. discriminate.
  - apply Hstmts.
    + repeat constructor; simpl; lia.
    + vm_compute. discriminate.
Defined.

(** C8, as the claim has it: two uncovered blocks of [int_max] statements
    each, statement counts that are not negative, wrap the statement count
    around, and MissingStmts is negative. *)
Lemma results_missing_overflow :
  let bs := [block int_max 0; block int_max 0] in
  let a := foldl add (accumulator_new "a.go") bs in
  Forall (fun b => 0 <= cover.NumStmt b) bs /\
  Stmts (results a) = -2 /\ coveredStmts a = 0 /\
  MissingStmts (results a) = -2 /\
  ~ 0 <= MissingStmts (results a).
Proof.
  split; [repeat constructor; vm_compute; discriminate|].
  repeat split; vm_compute; (reflexivity || (intros H; by apply H)).
Qed.

(** ** Display names *)

Lemma string_length_app s1 s2 :
  String.length (s1 +:+ s2) = (String.length s1 + String.length s2)%nat.
Proof. induction s1 as [|c s1 IH]; simpl; [done|]. by rewrite IH. Qed.

Lemma substring_whole s : substring 0 (String.length s) s = s.
Proof. induction s as [|c s IH]; simpl; [done|]. by rewrite IH. Qed.

Lemma substring_after s1 s2 :
  substring (String.length s1)
    (String.length (s1 +:+ s2) - String.length s1) (s1 +:+ s2) = s2.
Proof.
  induction s1 as [|c s1 IH]; simpl.
  - rewrite Nat.sub_0_r. apply substring_whole.
  - apply IH.
Qed.

Lemma prefix_app s1 s2 : String.prefix s1 (s1 +:+ s2) = true.
Proof.
  induction s1 as [|c s1 IH]; simpl; [by destruct s2|].
  by destruct (ascii_dec c c).
Qed.

Lemma prefix_split s1 s :
  String.prefix s1 s = true -> exists s2, s = s1 +:+ s2.
Proof.
  revert s. induction s1 as [|c s1 IH]; intros s Hp.
  - by exists s.
  - destruct s as [|c' s]; simpl in Hp; [done|].
    destruct (ascii_dec c c') as [<-|]; [|done].
    destruct (IH s Hp) as [s2 ->]. by exists s2.
Qed.

(** Fuel beyond the length of the string changes nothing. *)
Lemma replace_loop_fuel old s fuel1 fuel2 :
  old <> "" ->
  (String.length s <= fuel1)%nat -> (String.length s <= fuel2)%nat ->
  replace_loop fuel1 old s = replace_loop fuel2 old s.
Proof.
  intros Hold. revert s fuel2.
  induction fuel1 as [|fuel1 IH]; intros s fuel2 H1 H2.
  - destruct s; [|simpl in H1; lia]. by destruct fuel2, old.
  - destruct fuel2 as [|fuel2].
    + destruct s; [|simpl in H2; lia]. by destruct old.
    + simpl. destruct (String.prefix old s) eqn:Hp.
      * destruct (prefix_split _ _ Hp) as [rest ->].
        rewrite substring_after.
        rewrite string_length_app in H1, H2.
        assert (String.length old <> 0)%nat by (by destruct old).
        apply IH; lia.
      * destruct s as [|c s]; [done|]. simpl in H1, H2.
        f_equal. apply IH; lia.
Qed.

Lemma strings_Replace_all_nil old : strings_Replace_all "" old = "".
Proof. by destruct old. Qed.

(** An occurrence at the head is dropped, and the search goes on behind it. *)
Lemma strings_Replace_all_hit old s :
  old <> "" -> strings_Replace_all (old +:+ s) old = strings_Replace_all s old.
Proof.
  intros Hold.
  assert (strings_Replace_all (old +:+ s) old
          = replace_loop (String.length (old +:+ s)) old (old +:+ s)) as ->
    by (by destruct old).
  assert (strings_Replace_all s old = replace_loop (String.length s) old s) as ->
    by (by destruct old).
  assert (String.length old <> 0)%nat as Hlen by (by destruct old).
  rewrite string_length_app at 1.
  destruct (String.length old + String.length s)%nat as [|fuel] eqn:Hfuel; [lia|].
  cbn [replace_loop]. rewrite prefix_app, substring_after.
  apply replace_loop_fuel; [done|lia|lia].
Qed.

(** A byte that starts no occurrence is kept, and the search goes on. *)
Lemma strings_Replace_all_miss old c s :
  old <> "" -> String.prefix old (String c s) = false ->
  strings_Replace_all (String c s) old = String c (strings_Replace_all s old).
Proof.
  intros Hold Hp.
  assert (strings_Replace_all (String c s) old
          = replace_loop (S (String.length s)) old (String c s)) as ->
    by (by destruct old).
  assert (strings_Replace_all s old = replace_loop (String.length s) old s) as ->
    by (by destruct old).
  cbn [replace_loop]. by rewrite Hp.
Qed.

Lemma root_slash_nonempty root : root +:+ "/" <> "".
Proof. by destruct root. Qed.

(** A path in which [old] does not occur is left as it is. *)
Lemma strings_Replace_all_absent old s :
  old <> "" -> (forall a b, s <> a +:+ old +:+ b) ->
  strings_Replace_all s old = s.
Proof.
  intros Hold. induction s as [|c s IH]; intros Habs.
  - apply strings_Replace_all_nil.
  - rewrite strings_Replace_all_miss; [|done|].
    + f_equal. apply IH. intros a b ->. by apply (Habs (String c a) b).
    + destruct (String.prefix old (String c s)) eqn:Hp; [|done].
      destruct (prefix_split _ _ Hp) as [rest Hrest].
      by destruct (Habs "" rest).
Qed.

(** C2, as the code has it. With an empty root the display name is the raw
    path. With a non-empty root every occurrence of root + "/" is taken out
    of the raw path, from left to right and wherever it stands: an
    occurrence at the head is dropped and the rest is treated in the same
    way, a byte that starts no occurrence is kept and the rest is treated in
    the same way, and a path without any occurrence is unchanged. *)
Theorem display_name_removes_all (root : string) :
  (root = "" -> forall raw, display_name root raw = raw) /\
  (root <> "" ->
   (forall rest,
      display_name root ((root +:+ "/") +:+ rest) = display_name root rest) /\
   (forall c rest,
      String.prefix (root +:+ "/") (String c rest) = false ->
      display_name root (String c rest) = String c (display_name root rest)) /\
   (forall raw,
      (forall a b, raw <> a +:+ (root +:+ "/") +:+ b) ->
      display_name root raw = raw)).
Proof.
  unfold display_name. split.
  - by intros ->.
  - intros Hroot. apply String.eqb_neq in Hroot. rewrite Hroot.
    split; [|split].
    + intros rest. apply strings_Replace_all_hit, root_slash_nonempty.
    + intros c rest. apply strings_Replace_all_miss, root_slash_nonempty.
    + intros raw. apply strings_Replace_all_absent, root_slash_nonempty.
Qed.

Lemma display_name_removes_all_witness :
  (forall raw, display_name "" raw = raw) /\
  (forall rest, display_name "a" (("a" +:+ "/") +:+ rest) = display_name "a" rest) /\
  (forall c rest,
     String.prefix ("a" +:+ "/") (String c rest) = false ->
     display_name "a" (String c rest) = String c (display_name "a" rest)) /\
  (forall raw,
     (forall a b, raw <> a +:+ ("a" +:+ "/") +:+ b) -> display_name "a" raw = raw).
Proof.
  split.
  - apply (display_name_removes_all ""). reflexivity.
  - apply (display_name_removes_all "a"). discriminate.
Defined.

(** C2, as the claim has it: a path that does not start with root + "/" is
    changed all the same, and a second occurrence goes with the first. *)
Lemma display_name_not_only_prefix :
  String.prefix "a/" "b/a/c.go" = false /\
  display_name "a" "b/a/c.go" <> "b/a/c.go" /\
  display_name "a" "a/a/c.go" <> "a/c.go" /\
  Name <$> Files
    (GenerateReport
       (parse_const ([cover.mkProfile "b/a/c.go" "set" [block 1 1]], None))
       range_up sort_Slice_short "cover.out" "a" [] "filename" "asc").1
  = ["b/c.go"].
Proof. repeat split; vm_compute; (reflexivity || discriminate). Qed.

(** ** Sorting short slices *)

(** No comparator puts a summary below one that has the same key. *)
Lemma cmp_of_mode_tie mode cmp key_of x y :
  cmp_of_mode mode = Some cmp -> key_of_mode mode = Some key_of ->
  key_of x = key_of y -> cmp x y = false.
Proof.
  unfold cmp_of_mode, key_of_mode.
  repeat case_match; intros; simplify_eq.
  - unfold cmp_filename. replace (Name x) with (Name y) by done.
    apply string_ltb_irrefl.
  - unfold cmp_block. replace (BlockCoverage x) with (BlockCoverage y) by done.
    apply float_ltb_irrefl.
  - apply cmp_stmt_false.
  - unfold cmp_missing_blocks. replace (MissingBlocks x) with (MissingBlocks y) by done.
    apply Z.ltb_irrefl.
  - unfold cmp_missing_stmts. replace (MissingStmts x) with (MissingStmts y) by done.
    apply Z.ltb_irrefl.
Qed.

Section ShortSlices.

Variable sort_Slice : list Summary -> less_func -> list Summary.
Hypothesis sort_Slice_short : sort_short sort_Slice.

(** On a short slice a successful [sortResults] is the insertion sort by the
    directed comparator of the mode. *)
Lemma sortResults_short reports mode order reports' :
  (length reports <= 6)%nat ->
  sortResults sort_Slice reports mode order = (reports', None) ->
  exists reverse cmp,
    reverse_of_order order = Some reverse /\ cmp_of_mode mode = Some cmp /\
    reports' = isort (cmp_directed reverse cmp) reports.
Proof.
  intros Hlen (reverse & less & Hrev & Hless & ->)%sortResults_success.
  destruct (less_of_mode_induced mode less Hless) as (cmp & Hcmp & Hind).
  exists reverse, cmp. split; [done|]. split; [done|].
  rewrite (sort_Slice_short _ _ Hlen).
  by apply insertionSort_func_isort, induced_directed.
Qed.

(** With the key [stmt] the order of the slice is left as it was found in
    one direction, and is turned around in the other. *)
Lemma sortResults_stmt reports :
  (length reports <= 6)%nat ->
  sortResults sort_Slice reports "stmt" "asc" = (reports, None) /\
  sortResults sort_Slice reports "stmt" "desc" = (reverse reports, None).
Proof.
  intros Hlen. unfold sortResults. simpl.
  rewrite !(sort_Slice_short _ _ Hlen).
  rewrite (insertionSort_func_isort _ _
             (induced_directed false _ _ induced_stmt)).
  rewrite (insertionSort_func_isort _ _
             (induced_directed true _ _ induced_stmt)).
  rewrite isort_all_false, isort_all_true; [done| |].
  - intros x y _ _. unfold cmp_directed. by rewrite cmp_stmt_false.
  - intros x y _ _. apply cmp_stmt_false.
Qed.

End ShortSlices.

(** C3, as the code has it. On a slice of at most six summaries, which
    [sort.Slice] sorts by insertion, summaries that share a key keep their
    order when the direction is asc; when the direction is desc a slice
    whose summaries all share one key comes back in the opposite order. *)
Theorem sortResults_ties
    (sort_Slice : list Summary -> less_func -> list Summary)
    (reports reports' : list Summary) (mode order : string)
    (key_of : Summary -> key) :
  sort_short sort_Slice ->
  (length reports <= 6)%nat ->
  key_of_mode mode = Some key_of ->
  sortResults sort_Slice reports mode order = (reports', None) ->
  (order = "asc" ->
   forall (P : Summary -> Prop) (P_dec : forall s, Decision (P s)),
     (forall x y, P x -> P y -> key_of x = key_of y) ->
     filter P reports' = filter P reports) /\
  (order = "desc" ->
   (forall x y, x ∈ reports -> y ∈ reports -> key_of x = key_of y) ->
   reports' = reverse reports).
Proof.
  intros Hshort Hlen Hkey Hsort.
  destruct (sortResults_short _ Hshort _ _ _ _ Hlen Hsort)
    as (reverse & cmp & Hrev & Hcmp & ->).
  split; intros ->; injection Hrev as <-.
  - intros P P_dec Htie. apply isort_filter.
    intros x y Hx Hy. unfold cmp_directed.
    eapply cmp_of_mode_tie; eauto.
  - intros Htie. apply isort_all_true.
    intros x y Hx Hy. unfold cmp_directed.
    erewrite cmp_of_mode_tie; eauto.
Qed.

Lemma sortResults_ties_witness :
  (forall (P : Summary -> Prop) (P_dec : forall s, Decision (P s)),
     (forall x y, P x -> P y ->
                  key_int (MissingStmts x) = key_int (MissingStmts y)) ->
     filter P (sortResults sort_Slice_short [tied_a; tied_b] "missing-stmts" "asc").1
     = filter P [tied_a; tied_b]) /\
  (sortResults sort_Slice_short [tied_a; tied_b] "missing-stmts" "desc").1
  = reverse [tied_a; tied_b].
Proof.
  split.
  - refine (proj1 (sortResults_ties sort_Slice_short [tied_a; tied_b] _
                     "missing-stmts" "asc" (fun s => key_int (MissingStmts s))
                     sort_Slice_short_short _ _ _) eq_refl).
    + simpl. lia.
    + reflexivity.
    + vm_compute. reflexivity.
  - refine (proj2 (sortResults_ties sort_Slice_short [tied_a; tied_b] _
                     "missing-stmts" "desc" (fun s => key_int (MissingStmts s))
                     sort_Slice_short_short _ _ _) eq_refl _).
    + simpl. lia.
    + reflexivity.
    + vm_compute. reflexivity.
    + intros x y Hx Hy.
      apply elem_of_cons in Hx as [->|Hx]; [|apply list_elem_of_singleton in Hx as ->];
        (apply elem_of_cons in Hy as [->|Hy];
         [|apply list_elem_of_singleton in Hy as ->]); vm_compute; reflexivity.
Defined.

(** C3, as the claim has it: two summaries with the same number of missing
    statements keep their order under asc and change places under desc. *)
Lemma sortResults_desc_reorders_ties :
  MissingStmts tied_a = MissingStmts tied_b /\
  sortResults sort_Slice_short [tied_a; tied_b] "missing-stmts" "asc"
  = ([tied_a; tied_b], None) /\
  sortResults sort_Slice_short [tied_a; tied_b] "missing-stmts" "desc"
  = ([tied_b; tied_a], None) /\
  [tied_b; tied_a] <> [tied_a; tied_b].
Proof. repeat split; vm_compute; (reflexivity || discriminate). Qed.

(** C1. Sorting by [stmt] does not order the summaries by StmtCoverage: the
    summaries with 80% and 60% of their statements covered, in this order,
    are left as they are when the direction is asc, and the same pair in the
    order 60%, 80% is what desc makes of them. *)
Theorem sortResults_stmt_unsorted :
  let high := results (foldl add (accumulator_new "a.go") [block 4 1; block 1 0]) in
  let low := results (foldl add (accumulator_new "b.go") [block 3 1; block 2 0]) in
  StmtCoverage high = 80%float /\ StmtCoverage low = 60%float /\
  sortResults sort_Slice_short [high; low] "stmt" "asc" = ([high; low], None) /\
  sortResults sort_Slice_short [high; low] "stmt" "desc" = ([low; high], None).
Proof. repeat split; vm_compute; reflexivity. Qed.

(** ** Two calls on the same inputs *)

Lemma Sorted_distinct {A B} (R R' : relation A) (f : A -> B) (l : list A) :
  (forall x y, R x y -> f x <> f y -> R' x y) ->
  Sorted R l -> NoDup (f <$> l) -> Sorted R' l.
Proof.
  intros Hstrict. induction 1 as [|x l Hs IH Hhd]; intros Hnd; [constructor|].
  rewrite fmap_cons in Hnd. apply NoDup_cons in Hnd as [Hx Hnd].
  constructor; [by apply IH|].
  destruct Hhd as [|y l Hxy]; constructor.
  apply Hstrict; [done|]. intros Heq. apply Hx. rewrite Heq, fmap_cons.
  apply list_elem_of_here.
Qed.

#[local] Instance name_order_trans reverse : Transitive (name_order reverse).
Proof.
  intros x y z. unfold name_order. destruct reverse; intros Hxy Hyz.
  - by apply (string_ltb_trans _ (Name y)).
  - by apply (string_ltb_trans _ (Name y)).
Qed.

#[local] Instance name_order_antisym reverse : AntiSymm (=) (name_order reverse).
Proof.
  intros x y. unfold name_order.
  destruct reverse; intros Hxy Hyx; apply string_ltb_asym in Hxy; congruence.
Qed.

Lemma settled_name_order reverse x y :
  settled (cmp_directed reverse cmp_filename) x y -> Name x <> Name y ->
  name_order reverse x y.
Proof.
  unfold settled, cmp_directed, cmp_filename, name_order.
  destruct reverse; intros [Hs|Hs] Hne.
  - by apply negb_false_iff in Hs.
  - apply negb_true_iff in Hs. by apply string_ltb_total.
  - apply string_ltb_total; [done|]. done.
  - done.
Qed.

(** The insertion sort by name of summaries with distinct names depends on
    the summaries alone, not on the order they come in. *)
Lemma isort_filename_unique reverse l1 l2 :
  l1 ≡ₚ l2 -> NoDup (Name <$> l1) ->
  isort (cmp_directed reverse cmp_filename) l1
  = isort (cmp_directed reverse cmp_filename) l2.
Proof.
  intros Hperm Hnd.
  apply (Sorted_unique (name_order reverse)).
  - eapply (Sorted_distinct _ _ Name); [apply settled_name_order|apply isort_settled|].
    by rewrite isort_perm.
  - eapply (Sorted_distinct _ _ Name); [apply settled_name_order|apply isort_settled|].
    by rewrite isort_perm, <- Hperm.
  - by rewrite !isort_perm.
Qed.

Lemma accumulated_names exclusions st :
  accumulated exclusions st ->
  NoDup (Name <$> ((fun kv => results kv.2) <$> map_to_list st.2)).
Proof.
  intros [_ _ Hf _]. rewrite <- list_fmap_compose.
  rewrite (list_fmap_ext _ fst (map_to_list st.2)); [apply NoDup_fst_map_to_list|].
  intros i [k a] Hka. simpl.
  apply list_elem_of_lookup_2, elem_of_map_to_list in Hka.
  by destruct (Hf k a Hka) as (_ & ? & _).
Qed.

Lemma key_lt_trans k1 k2 k3 :
  key_lt k1 k2 = true -> key_lt k2 k3 = true -> key_lt k1 k3 = true.
Proof.
  destruct k1, k2, k3; simpl; try done.
  - apply string_ltb_trans.
  - apply float_ltb_trans.
  - rewrite !Z.ltb_lt. lia.
Qed.

Lemma key_lt_asym k1 k2 : key_lt k1 k2 = true -> key_lt k2 k1 = false.
Proof.
  destruct k1, k2; simpl; try done.
  - apply string_ltb_asym.
  - apply float_ltb_asym.
  - rewrite Z.ltb_lt, Z.ltb_ge. lia.
Qed.

(** But for [stmt], the comparator of a mode is the strict order of its key. *)
Lemma cmp_of_mode_key_lt mode cmp key_of :
  mode <> "stmt" ->
  cmp_of_mode mode = Some cmp -> key_of_mode mode = Some key_of ->
  forall x y, cmp x y = key_lt (key_of x) (key_of y).
Proof.
  unfold cmp_of_mode, key_of_mode. intros Hmode.
  destruct (String.eqb_spec mode "filename"); [by intros [= <-] [= <-]|].
  destruct (String.eqb_spec mode "block"); [by intros [= <-] [= <-]|].
  destruct (String.eqb_spec mode "stmt"); [done|].
  destruct (String.eqb_spec mode "missing-blocks"); [by intros [= <-] [= <-]|].
  destruct (String.eqb_spec mode "missing-stmts"); [by intros [= <-] [= <-]|].
  done.
Qed.

Lemma NoDup_fmap_eq {A B} (f : A -> B) (l : list A) x y :
  NoDup (f <$> l) -> x ∈ l -> y ∈ l -> f x = f y -> x = y.
Proof.
  induction l as [|z l IH]; intros Hnd Hx Hy Heq.
  - by apply elem_of_nil in Hx.
  - rewrite fmap_cons in Hnd. apply NoDup_cons in Hnd as [Hz Hnd].
    apply elem_of_cons in Hx as [->|Hx]; apply elem_of_cons in Hy as [->|Hy].
    + done.
    + destruct Hz. rewrite Heq. by apply list_elem_of_fmap_2.
    + destruct Hz. rewrite <- Heq. by apply list_elem_of_fmap_2.
    + by apply IH.
Qed.

(** Summaries with distinct counts do not tie on the count. *)
Lemma untied_int (f : Summary -> Z) (l : list Summary) :
  NoDup (f <$> l) -> untied (fun s => key_int (f s)) l.
Proof.
  intros Hnd x y Hx Hy Hne. simpl. rewrite !Z.ltb_lt.
  assert (f x <> f y) as Hf by (intros Heq; by apply Hne, (NoDup_fmap_eq f l)).
  lia.
Qed.

(** Summaries with distinct names do not tie on the name. *)
Lemma untied_string (f : Summary -> string) (l : list Summary) :
  NoDup (f <$> l) -> untied (fun s => key_string (f s)) l.
Proof.
  intros Hnd x y Hx Hy Hne. simpl.
  assert (f x <> f y) as Hf by (intros Heq; by apply Hne, (NoDup_fmap_eq f l)).
  destruct (String.ltb (f x) (f y)) eqn:Hlt; [by left|].
  right. by apply string_ltb_total.
Qed.

Lemma Sorted_strict {A} (R R' : relation A) (l : list A) :
  (forall x y, x ∈ l -> y ∈ l -> x <> y -> R x y -> R' x y) ->
  Sorted R l -> NoDup l -> Sorted R' l.
Proof.
  intros Hstrict Hs. revert Hstrict.
  induction Hs as [|x l Hs IH Hhd]; intros Hstrict Hnd; [constructor|].
  apply NoDup_cons in Hnd as [Hx Hnd]. constructor.
  - apply IH; [|done]. intros y z Hy Hz. apply Hstrict; by apply list_elem_of_further.
  - destruct Hhd as [|y l Hxy]; constructor.
    apply Hstrict; [apply list_elem_of_here| |intros ->|done].
    + apply list_elem_of_further, list_elem_of_here.
    + apply Hx, list_elem_of_here.
Qed.

(** The insertion sort by a strict order of summaries none of which tie
    depends on the summaries alone, not on the order they come in. *)
Lemma isort_untied_unique cmp reverse l1 l2 :
  (forall x y z, cmp x y = true -> cmp y z = true -> cmp x z = true) ->
  (forall x y, cmp x y = true -> cmp y x = false) ->
  l1 ≡ₚ l2 -> NoDup l1 ->
  (forall x y, x ∈ l1 -> y ∈ l1 -> x <> y -> cmp x y = true \/ cmp y x = true) ->
  isort (cmp_directed reverse cmp) l1 = isort (cmp_directed reverse cmp) l2.
Proof.
  intros Htrans Hasym Hperm Hnd Huntied.
  assert (Transitive (cmp_order cmp reverse)) as HT.
  { intros x y z. unfold cmp_order. destruct reverse; eauto. }
  assert (AntiSymm (=) (cmp_order cmp reverse)) as HA.
  { intros x y. unfold cmp_order.
    destruct reverse; intros Hxy Hyx; apply Hasym in Hxy; congruence. }
  assert (forall l, l ≡ₚ l1 ->
            Sorted (cmp_order cmp reverse) (isort (cmp_directed reverse cmp) l))
    as Hsorted.
  { intros l Hl.
    apply (Sorted_strict (settled (cmp_directed reverse cmp)));
      [|apply isort_settled|by rewrite isort_perm, Hl].
    intros x y Hx Hy Hne. rewrite isort_perm, Hl in Hx, Hy.
    unfold settled, cmp_directed, cmp_order.
    destruct (Huntied x y Hx Hy Hne) as [Hlt|Hlt]; destruct reverse;
      rewrite ?negb_false_iff, ?negb_true_iff; intros [Hs|Hs];
      try done; try congruence; apply Hasym in Hlt; congruence. }
  apply (Sorted_unique (cmp_order cmp reverse)).
  - by apply Hsorted.
  - by apply Hsorted.
  - by rewrite !isort_perm.
Qed.

(** Two calls that differ in the order of iteration over the map: the same
    error, the same Total, the same files up to their order. *)
Lemma GenerateReport_two_ranges
    (ParseProfiles : string -> list cover.Profile * option error)
    (range1 range2 : gmap string accumulator -> list (string * accumulator))
    (sort_Slice : list Summary -> less_func -> list Summary)
    (coverprofile root : string) (exclusions : list string)
    (sortBy order : string) :
  range_spec range1 -> range_spec range2 -> sort_permutes sort_Slice ->
  let first :=
    GenerateReport ParseProfiles range1 sort_Slice
      coverprofile root exclusions sortBy order in
  let second :=
    GenerateReport ParseProfiles range2 sort_Slice
      coverprofile root exclusions sortBy order in
  first.2 = second.2 /\ Total first.1 = Total second.1 /\
  Files first.1 ≡ₚ Files second.1.
Proof.
  intros Hrange1 Hrange2 Hperm first second.
  unfold first, second, GenerateReport.
  destruct (ParseProfiles coverprofile) as [profiles [err|]]; [done|].
  unfold makeReport, sortResults.
  destruct (reverse_of_order order) as [reverse|]; [|done].
  destruct (less_of_mode sortBy) as [less|]; [|done].
  cbn [fst snd Files Total]. split; [done|]. split; [done|].
  rewrite !(Hperm _ _). change (map ?f ?l) with (f <$> l).
  apply fmap_Permutation. by rewrite (Hrange1 _), (Hrange2 _).
Qed.

(** C7, as the code has it. Two calls on the same inputs, each with its own
    order of iteration over the map, return the same error, the same Total
    and the same file summaries up to their order. When the files are at
    most six, the order is the same as well if they are sorted by name, and
    with every key but [stmt] if no two files tie on the key. *)
Theorem GenerateReport_repeatable
    (ParseProfiles : string -> list cover.Profile * option error)
    (range1 range2 : gmap string accumulator -> list (string * accumulator))
    (sort_Slice : list Summary -> less_func -> list Summary)
    (coverprofile root : string) (exclusions : list string)
    (sortBy order : string) :
  range_spec range1 -> range_spec range2 ->
  sort_permutes sort_Slice -> sort_short sort_Slice ->
  let first :=
    GenerateReport ParseProfiles range1 sort_Slice
      coverprofile root exclusions sortBy order in
  let second :=
    GenerateReport ParseProfiles range2 sort_Slice
      coverprofile root exclusions sortBy order in
  first.2 = second.2 /\ Total first.1 = Total second.1 /\
  Files first.1 ≡ₚ Files second.1 /\
  (sortBy = "filename" -> (length (Files first.1) <= 6)%nat ->
   Files first.1 = Files second.1) /\
  (forall key_of,
     sortBy <> "stmt" -> key_of_mode sortBy = Some key_of ->
     untied key_of (Files first.1) -> (length (Files first.1) <= 6)%nat ->
     Files first.1 = Files second.1).
Proof.
  intros Hrange1 Hrange2 Hperm Hshort first second.
  unfold first, second, GenerateReport.
  destruct (ParseProfiles coverprofile) as [profiles [err|]]; [done|].
  set (st := accumulate root exclusions profiles).
  pose proof (accumulated_accumulate root exclusions profiles) as Hacc.
  fold st in Hacc. unfold makeReport, sortResults.
  destruct (reverse_of_order order) as [reverse|]; [|done].
  destruct (less_of_mode sortBy) as [less|] eqn:Hless; [|done].
  simpl fst. simpl snd.
  set (l1 := map (fun kv => results kv.2) (range1 st.2)).
  set (l2 := map (fun kv => results kv.2) (range2 st.2)).
  assert (l1 ≡ₚ (fun kv => results kv.2) <$> map_to_list st.2) as Hl1.
  { unfold l1. change (map ?f ?l) with (f <$> l). apply fmap_Permutation, Hrange1. }
  assert (l2 ≡ₚ (fun kv => results kv.2) <$> map_to_list st.2) as Hl2.
  { unfold l2. change (map ?f ?l) with (f <$> l). apply fmap_Permutation, Hrange2. }
  assert (NoDup (Name <$> l1)) as Hnames.
  { rewrite Hl1. by apply (accumulated_names exclusions). }
  split; [done|]. split; [done|]. cbn [Files]. split; [|split].
  - by rewrite !(Hperm _ _), Hl1, Hl2.
  - intros -> Hlen. injection Hless as <-.
    rewrite (Hperm _ _) in Hlen.
    rewrite !Hshort; [| by rewrite Hl2, <- Hl1 | done].
    rewrite !(insertionSort_func_isort _ _
                (induced_directed reverse _ _ induced_filename)).
    by apply isort_filename_unique; [rewrite Hl1, Hl2|].
  - intros key_of Hmode Hkey Huntied Hlen.
    destruct (less_of_mode_induced sortBy less Hless) as (cmp & Hcmp & Hind).
    pose proof (cmp_of_mode_key_lt sortBy cmp key_of Hmode Hcmp Hkey) as Hlt.
    assert (forall x y, x ∈ l1 -> y ∈ l1 -> x <> y ->
              cmp x y = true \/ cmp y x = true) as Hties.
    { intros x y Hx Hy Hne. rewrite !Hlt.
      apply Huntied; [by rewrite (Hperm _ _)|by rewrite (Hperm _ _)|done]. }
    rewrite (Hperm _ _) in Hlen.
    rewrite !Hshort; [| by rewrite Hl2, <- Hl1 | done].
    rewrite !(insertionSort_func_isort _ _ (induced_directed reverse _ _ Hind)).
    apply isort_untied_unique.
    + intros x y z. rewrite !Hlt. apply key_lt_trans.
    + intros x y. rewrite !Hlt. apply key_lt_asym.
    + by rewrite Hl1, Hl2.
    + by apply (NoDup_fmap_1 Name).
    + done.
Qed.

Lemma GenerateReport_repeatable_witness :
  let first :=
    GenerateReport (parse_const (two_files, None)) range_up sort_Slice_short
      "cover.out" "" [] "missing-stmts" "desc" in
  let second :=
    GenerateReport (parse_const (two_files, None)) range_down sort_Slice_short
      "cover.out" "" [] "missing-stmts" "desc" in
  first.2 = second.2 /\ Total first.1 = Total second.1 /\
  Files first.1 ≡ₚ Files second.1 /\
  Files first.1 = Files second.1.
Proof.
  destruct (GenerateReport_repeatable (parse_const (two_files, None))
              range_up range_down sort_Slice_short
              "cover.out" "" [] "missing-stmts" "desc"
              range_up_spec range_down_spec
              sort_Slice_short_permutes sort_Slice_short_short)
    as (Herr & Htotal & Hperm & _ & Huntied).
  split; [exact Herr|]. split; [exact Htotal|]. split; [exact Hperm|].
  apply (Huntied (fun s => key_int (MissingStmts s))).
  - discriminate.
  - reflexivity.
  - apply untied_int. apply (bool_decide_unpack _). vm_compute. exact I.
  - vm_compute. lia.
Defined.

(** C7, as the claim has it: on two files with the same number of missing
    statements, the order of [Files] follows the order in which the map was
    visited, so two calls on the same inputs can differ. *)
Lemma GenerateReport_order_follows_range :
  let call range :=
    GenerateReport (parse_const (tied_files, None)) range sort_Slice_short
      "cover.out" "" [] "missing-stmts" "asc" in
  Name <$> Files (call range_up).1 = ["a.go"; "b.go"] /\
  Name <$> Files (call range_down).1 = ["b.go"; "a.go"] /\
  call range_up <> call range_down.
Proof. repeat split; vm_compute; (reflexivity || discriminate). Qed.

(** ** Which blocks an accumulator of [GenerateReport] has been fed *)

Lemma retained_snoc root exclusions ps p :
  retained root exclusions (ps ++ [p])
  = retained root exclusions ps
    ++ (if excluded root exclusions p then [] else [p]).
Proof.
  unfold retained. rewrite List.filter_app. simpl.
  by destruct (excluded root exclusions p).
Qed.

Lemma accumulate_snoc root exclusions ps p :
  accumulate root exclusions (ps ++ [p])
  = visit_profile root exclusions (accumulate root exclusions ps) p.
Proof. unfold accumulate. by rewrite foldl_app. Qed.

Lemma visit_retained root exclusions st p :
  excluded root exclusions p = false ->
  visit_profile root exclusions st p
  = (foldl add st.1 (cover.Blocks p),
     <[display_name root (cover.FileName p) :=
         foldl add
           (default (accumulator_new (display_name root (cover.FileName p)))
                    (st.2 !! display_name root (cover.FileName p)))
           (cover.Blocks p)]> st.2).
Proof.
  intros Hex. unfold visit_profile.
  by rewrite skipped_excluded, Hex, add_blocks_foldl.
Qed.

(** [total] has been fed the blocks of all retained profiles, in order. *)
Lemma accumulate_total root exclusions profiles :
  (accumulate root exclusions profiles).1
  = foldl add (accumulator_new "Total")
      (flat_map cover.Blocks (retained root exclusions profiles)).
Proof.
  induction profiles as [|p ps IH] using rev_ind; [done|].
  rewrite accumulate_snoc, retained_snoc, flat_map_app, foldl_app, <- IH.
  destruct (excluded root exclusions p) eqn:Hex.
  - by rewrite visit_excluded.
  - rewrite visit_retained by done. simpl. by rewrite (right_id_L [] (++)).
Qed.

Lemma filter_none {A} (f : A -> bool) (l : list A) :
  existsb f l = false -> List.filter f l = [].
Proof.
  induction l as [|x l IH]; simpl; [done|].
  destruct (f x); simpl; [done|apply IH].
Qed.

(** The map has an accumulator for the name of every retained profile; it
    has been fed the blocks of the retained profiles of that name, in order. *)
Lemma accumulate_files root exclusions profiles k :
  (accumulate root exclusions profiles).2 !! k
  = if existsb (named root k) (retained root exclusions profiles)
    then Some (foldl add (accumulator_new k)
                 (file_blocks root exclusions k profiles))
    else None.
Proof.
  induction profiles as [|p ps IH] using rev_ind; [done|].
  unfold file_blocks in *.
  rewrite accumulate_snoc, retained_snoc, existsb_app, List.filter_app,
    flat_map_app, foldl_app.
  destruct (excluded root exclusions p) eqn:Hex.
  - rewrite visit_excluded by done. simpl.
    by rewrite orb_false_r.
  - rewrite visit_retained by done. simpl.
    destruct (named root k p) eqn:Hk; unfold named in Hk.
    + apply String.eqb_eq in Hk as <-.
      rewrite lookup_insert_eq, orb_true_r, IH. simpl.
      rewrite (right_id_L [] (++)).
      destruct (existsb _ (retained root exclusions ps)) eqn:Hseen; simpl; [done|].
      by rewrite (filter_none _ _ Hseen).
    + apply String.eqb_neq in Hk.
      rewrite lookup_insert_ne by done. by rewrite !orb_false_r, IH.
Qed.

Lemma accumulate_file root exclusions profiles k a :
  (accumulate root exclusions profiles).2 !! k = Some a ->
  a = foldl add (accumulator_new k) (file_blocks root exclusions k profiles).
Proof.
  rewrite accumulate_files.
  destruct (existsb _ _); [by intros [= <-]|done].
Qed.

(** On a short slice the key [missing-stmts] does order the summaries. *)
Lemma sortResults_missing_stmts_sorted
    (sort_Slice : list Summary -> less_func -> list Summary)
    (reports reports' : list Summary) :
  sort_short sort_Slice -> (length reports <= 6)%nat ->
  sortResults sort_Slice reports "missing-stmts" "asc" = (reports', None) ->
  Sorted Z.le (MissingStmts <$> reports').
Proof.
  intros Hshort Hlen Hsort.
  destruct (sortResults_short _ Hshort _ _ _ _ Hlen Hsort)
    as (reverse & cmp & [= <-] & [= <-] & ->).
  eapply Sorted_fmap; [|apply isort_settled].
  intros x y. unfold settled, cmp_directed, cmp_missing_stmts.
  rewrite Z.ltb_ge, Z.ltb_lt. lia.
Qed.

(** * Further properties of the report *)

(** ** Which files the report lists *)

Section Listing.

Variable ParseProfiles : string -> list cover.Profile * option error.
Variable map_range : gmap string accumulator -> list (string * accumulator).
Variable sort_Slice : list Summary -> less_func -> list Summary.
Hypothesis map_range_spec : range_spec map_range.
Hypothesis sort_Slice_permutes : sort_permutes sort_Slice.

(** The files of a successful report, one by one: each is the summary of an
    accumulator of the map, found under its own name. *)
Lemma GenerateReport_file coverprofile root exclusions sortBy order profiles report s :
  ParseProfiles coverprofile = (profiles, None) ->
  GenerateReport ParseProfiles map_range sort_Slice
    coverprofile root exclusions sortBy order = (report, None) ->
  s ∈ Files report <->
  exists a, (accumulate root exclusions profiles).2 !! Name s = Some a /\ s = results a.
Proof.
  intros Hparse Hgen.
  destruct (GenerateReport_success _ _ _ _ _ _ _ _ _
              map_range_spec sort_Slice_permutes Hgen)
    as (profiles' & Hparse' & _ & Hfiles).
  rewrite Hparse in Hparse'. injection Hparse' as <-.
  destruct (accumulated_accumulate root exclusions profiles) as [_ _ Hf _].
  rewrite Hfiles, list_elem_of_fmap. split.
  - intros ([k a] & -> & Hka). apply elem_of_map_to_list in Hka.
    exists a. simpl. destruct (Hf k a Hka) as (_ & -> & _). by split.
  - intros (a & Ha & ->). exists (Name (results a), a).
    split; [done|]. by apply elem_of_map_to_list.
Qed.

End Listing.

(** X1. No two file summaries of a report carry the same name. *)
Theorem GenerateReport_names_distinct
    (ParseProfiles : string -> list cover.Profile * option error)
    (map_range : gmap string accumulator -> list (string * accumulator))
    (sort_Slice : list Summary -> less_func -> list Summary)
    (coverprofile root : string) (exclusions : list string)
    (sortBy order : string) (report : Report) :
  range_spec map_range -> sort_permutes sort_Slice ->
  GenerateReport ParseProfiles map_range sort_Slice
    coverprofile root exclusions sortBy order = (report, None) ->
  NoDup (Name <$> Files report).
Proof.
  intros Hrange Hsort Hgen.
  destruct (GenerateReport_success _ _ _ _ _ _ _ _ _ Hrange Hsort Hgen)
    as (profiles & _ & _ & Hfiles).
  rewrite Hfiles. apply (accumulated_names exclusions), accumulated_accumulate.
Qed.

Lemma GenerateReport_names_distinct_witness :
  NoDup (Name <$> Files
           (GenerateReport (parse_const (split_files, None)) range_down
              sort_Slice_short "cover.out" "src" [] "block" "asc").1).
Proof.
  apply (GenerateReport_names_distinct (parse_const (split_files, None)) range_down
           sort_Slice_short "cover.out" "src" [] "block" "asc").
  - apply range_down_spec.
  - apply sort_Slice_short_permutes.
  - vm_compute. reflexivity.
Defined.

(** X2. The names of the file summaries are the display names of the
    profiles that no exclusion matches, no more and no less: a retained
    profile is listed even when it has no block. *)
Theorem GenerateReport_names_retained
    (ParseProfiles : string -> list cover.Profile * option error)
    (map_range : gmap string accumulator -> list (string * accumulator))
    (sort_Slice : list Summary -> less_func -> list Summary)
    (coverprofile root : string) (exclusions : list string)
    (sortBy order : string) (profiles : list cover.Profile) (report : Report) :
  range_spec map_range -> sort_permutes sort_Slice ->
  ParseProfiles coverprofile = (profiles, None) ->
  GenerateReport ParseProfiles map_range sort_Slice
    coverprofile root exclusions sortBy order = (report, None) ->
  forall k,
    k ∈ Name <$> Files report <->
    exists profile,
      profile ∈ profiles /\ excluded root exclusions profile = false /\
      display_name root (cover.FileName profile) = k.
Proof.
  intros Hrange Hsort Hparse Hgen k.
  rewrite list_elem_of_fmap.
  assert ((exists s, k = Name s /\ s ∈ Files report) <->
          is_Some ((accumulate root exclusions profiles).2 !! k)) as ->.
  { split.
    - intros (s & -> & Hs).
      apply (GenerateReport_file _ _ _ Hrange Hsort _ _ _ _ _ _ _ _ Hparse Hgen) in Hs
        as (a & Ha & _). by exists a.
    - intros [a Ha].
      destruct (accumulated_accumulate root exclusions profiles) as [_ _ Hf _].
      destruct (Hf k a Ha) as (_ & Hname & _).
      exists (results a). split; [done|].
      apply (GenerateReport_file _ _ _ Hrange Hsort _ _ _ _ _ _ _ _ Hparse Hgen).
      exists a. simpl. by rewrite Hname. }
  rewrite accumulate_files.
  destruct (existsb _ _) eqn:Hseen.
  - split; [intros _|by eauto].
    apply existsb_exists in Hseen as (p & Hp & Hk).
    apply filter_In in Hp as [Hp Hex]. exists p.
    split; [by apply list_elem_of_In|]. split.
    + by apply negb_true_iff.
    + by apply String.eqb_eq.
  - split; [by intros [? ?]|]. intros (p & Hp & Hex & Hk).
    assert (existsb (named root k) (retained root exclusions profiles) = true)
      as Hyes; [|congruence].
    apply existsb_exists. exists p. split.
    + apply filter_In. split; [by apply list_elem_of_In|]. by rewrite Hex.
    + by apply String.eqb_eq.
Qed.

Lemma GenerateReport_names_retained_witness :
  "b.go" ∈ Name <$> Files
             (GenerateReport (parse_const (split_files, None)) range_up
                sort_Slice_short "cover.out" "src" ["a"] "filename" "asc").1 <->
  exists profile,
    profile ∈ split_files /\ excluded "src" ["a"] profile = false /\
    display_name "src" (cover.FileName profile) = "b.go".
Proof.
  apply (GenerateReport_names_retained (parse_const (split_files, None)) range_up
           sort_Slice_short "cover.out" "src" ["a"] "filename" "asc" split_files).
  - apply range_up_spec.
  - apply sort_Slice_short_permutes.
  - reflexivity.
  - vm_compute. reflexivity.
Defined.

(** X3. The profiles that share a display name go into one summary: each
    file summary is the summary of one accumulator that was fed the blocks of
    all the retained profiles of its name, in the order of the profiles. *)
Theorem GenerateReport_file_summary
    (ParseProfiles : string -> list cover.Profile * option error)
    (map_range : gmap string accumulator -> list (string * accumulator))
    (sort_Slice : list Summary -> less_func -> list Summary)
    (coverprofile root : string) (exclusions : list string)
    (sortBy order : string) (profiles : list cover.Profile) (report : Report) :
  range_spec map_range -> sort_permutes sort_Slice ->
  ParseProfiles coverprofile = (profiles, None) ->
  GenerateReport ParseProfiles map_range sort_Slice
    coverprofile root exclusions sortBy order = (report, None) ->
  forall s,
    s ∈ Files report ->
    s = results
          (foldl add (accumulator_new (Name s))
             (flat_map cover.Blocks
                (List.filter
                   (fun p => String.eqb (display_name root (cover.FileName p)) (Name s))
                   (retained root exclusions profiles)))).
Proof.
  intros Hrange Hsort Hparse Hgen s Hs.
  apply (GenerateReport_file _ _ _ Hrange Hsort _ _ _ _ _ _ _ _ Hparse Hgen) in Hs
    as (a & Ha & Hsa).
  apply accumulate_file in Ha. by rewrite Hsa at 1; rewrite Ha.
Qed.

Lemma GenerateReport_file_summary_witness :
  let s :=
    results (foldl add (accumulator_new "a.go") [block 3 1; block 2 0; block 4 7]) in
  s ∈ Files
        (GenerateReport (parse_const (split_files, None)) range_up
           sort_Slice_short "cover.out" "src" [] "filename" "desc").1 /\
  s = results
        (foldl add (accumulator_new (Name s))
           (flat_map cover.Blocks
              (List.filter
                 (fun p => String.eqb (display_name "src" (cover.FileName p)) (Name s))
                 (retained "src" [] split_files)))).
Proof.
  intros s.
  assert (s ∈ Files
                (GenerateReport (parse_const (split_files, None)) range_up
                   sort_Slice_short "cover.out" "src" [] "filename" "desc").1)
    as Hin by (vm_compute; repeat constructor).
  split; [exact Hin|].
  apply (GenerateReport_file_summary (parse_const (split_files, None)) range_up
           sort_Slice_short "cover.out" "src" [] "filename" "desc" split_files
           (GenerateReport (parse_const (split_files, None)) range_up
              sort_Slice_short "cover.out" "src" [] "filename" "desc").1
           range_up_spec sort_Slice_short_permutes eq_refl); [|exact Hin].
  vm_compute. reflexivity.
Defined.

(** X4. The Total of a report is the summary, under the name Total, of one
    accumulator that was fed every block of every retained profile, in the
    order of the profile. *)
Theorem GenerateReport_total_summary
    (ParseProfiles : string -> list cover.Profile * option error)
    (map_range : gmap string accumulator -> list (string * accumulator))
    (sort_Slice : list Summary -> less_func -> list Summary)
    (coverprofile root : string) (exclusions : list string)
    (sortBy order : string) (profiles : list cover.Profile) (report : Report) :
  range_spec map_range -> sort_permutes sort_Slice ->
  ParseProfiles coverprofile = (profiles, None) ->
  GenerateReport ParseProfiles map_range sort_Slice
    coverprofile root exclusions sortBy order = (report, None) ->
  Name (Total report) = "Total" /\
  Total report
  = results (foldl add (accumulator_new "Total")
               (flat_map cover.Blocks (retained root exclusions profiles))).
Proof.
  intros Hrange Hsort Hparse Hgen.
  destruct (GenerateReport_success _ _ _ _ _ _ _ _ _ Hrange Hsort Hgen)
    as (profiles' & Hparse' & -> & _).
  rewrite Hparse in Hparse'. injection Hparse' as <-.
  rewrite accumulate_total. split; [|done].
  simpl. apply name_foldl_add.
Qed.

Lemma GenerateReport_total_summary_witness :
  let report :=
    (GenerateReport (parse_const (split_files, None)) range_up
       sort_Slice_short "cover.out" "src" ["b"] "stmt" "asc").1 in
  Name (Total report) = "Total" /\
  Total report
  = results (foldl add (accumulator_new "Total")
               (flat_map cover.Blocks (retained "src" ["b"] split_files))).
Proof.
  apply (GenerateReport_total_summary (parse_const (split_files, None)) range_up
           sort_Slice_short "cover.out" "src" ["b"] "stmt" "asc" split_files).
  - apply range_up_spec.
  - apply sort_Slice_short_permutes.
  - reflexivity.
  - vm_compute. reflexivity.
Defined.

(** ** When a call fails, and what the sort arguments decide *)

(** X5. [GenerateReport] returns no error exactly when the profile was
    parsed and both sort arguments are recognised. *)
Theorem GenerateReport_ok_iff
    (ParseProfiles : string -> list cover.Profile * option error)
    (map_range : gmap string accumulator -> list (string * accumulator))
    (sort_Slice : list Summary -> less_func -> list Summary)
    (coverprofile root : string) (exclusions : list string)
    (sortBy order : string) :
  (GenerateReport ParseProfiles map_range sort_Slice
     coverprofile root exclusions sortBy order).2 = None <->
  (ParseProfiles coverprofile).2 = None /\ valid_order order /\ valid_mode sortBy.
Proof.
  unfold GenerateReport.
  destruct (ParseProfiles coverprofile) as [profiles [err|]]; simpl.
  { split; [done|]. by intros [? _]. }
  unfold makeReport.
  destruct (decide (valid_order order)) as [Horder|Horder].
  - destruct (decide (valid_mode sortBy)) as [Hmode|Hmode].
    + destruct (sortResults_ok sort_Slice
                  (map (fun kv => results kv.2)
                     (map_range (accumulate root exclusions profiles).2))
                  sortBy order Horder Hmode) as (reverse & less & _ & _ & ->).
      by simpl.
    + rewrite sortResults_bad_mode by done. simpl. split; [done|]. by intros (_ & _ & ?).
  - rewrite sortResults_bad_order by done. simpl. split; [done|]. by intros (_ & ? & _).
Qed.

(** X7. The sort arguments decide the order of the files and nothing else:
    two successful calls that differ in the key and the direction alone
    return the same Total and the same file summaries, up to their order. *)
Theorem GenerateReport_sort_arguments
    (ParseProfiles : string -> list cover.Profile * option error)
    (map_range : gmap string accumulator -> list (string * accumulator))
    (sort_Slice : list Summary -> less_func -> list Summary)
    (coverprofile root : string) (exclusions : list string)
    (sortBy1 order1 sortBy2 order2 : string) (report1 report2 : Report) :
  range_spec map_range -> sort_permutes sort_Slice ->
  GenerateReport ParseProfiles map_range sort_Slice
    coverprofile root exclusions sortBy1 order1 = (report1, None) ->
  GenerateReport ParseProfiles map_range sort_Slice
    coverprofile root exclusions sortBy2 order2 = (report2, None) ->
  Total report1 = Total report2 /\ Files report1 ≡ₚ Files report2.
Proof.
  intros Hrange Hsort Hgen1 Hgen2.
  destruct (GenerateReport_success _ _ _ _ _ _ _ _ _ Hrange Hsort Hgen1)
    as (profiles & Hparse & -> & ->).
  destruct (GenerateReport_success _ _ _ _ _ _ _ _ _ Hrange Hsort Hgen2)
    as (profiles' & Hparse' & -> & ->).
  rewrite Hparse in Hparse'. by injection Hparse' as <-.
Qed.

Lemma GenerateReport_sort_arguments_witness :
  let report1 :=
    (GenerateReport (parse_const (two_files, None)) range_up sort_Slice_short
       "cover.out" "" [] "filename" "desc").1 in
  let report2 :=
    (GenerateReport (parse_const (two_files, None)) range_up sort_Slice_short
       "cover.out" "" [] "missing-blocks" "asc").1 in
  Total report1 = Total report2 /\ Files report1 ≡ₚ Files report2.
Proof.
  apply (GenerateReport_sort_arguments (parse_const (two_files, None)) range_up
           sort_Slice_short "cover.out" "" [] "filename" "desc"
           "missing-blocks" "asc").
  - apply range_up_spec.
  - apply sort_Slice_short_permutes.
  - vm_compute. reflexivity.
  - vm_compute. reflexivity.
Defined.

(** ** What the exclusions and the order of the profiles do not change *)

Lemma skipped_same_elements fileName exclusions1 exclusions2 :
  (forall e, e ∈ exclusions1 <-> e ∈ exclusions2) ->
  skipped fileName exclusions1 = skipped fileName exclusions2.
Proof.
  intros Hsame. apply eq_true_iff_eq. rewrite !skipped_true.
  split; intros (e & He & Hp); exists e; (split; [by apply Hsame|done]).
Qed.

Lemma accumulate_same_elements root exclusions1 exclusions2 profiles :
  (forall e, e ∈ exclusions1 <-> e ∈ exclusions2) ->
  accumulate root exclusions1 profiles = accumulate root exclusions2 profiles.
Proof.
  intros Hsame. unfold accumulate.
  generalize (accumulator_new "Total", ∅ : gmap string accumulator).
  induction profiles as [|p ps IH]; intros st; simpl; [done|].
  assert (visit_profile root exclusions1 st p = visit_profile root exclusions2 st p)
    as ->; [|apply IH].
  unfold visit_profile. by rewrite (skipped_same_elements _ _ _ Hsame).
Qed.

(** X8. The exclusions count as a set: two lists with the same elements, in
    any order and with any repetitions, give the same outcome when the map
    is visited in the same order, and in any case the same error, the same
    Total and the same file summaries up to their order. *)
Theorem GenerateReport_exclusions_as_set
    (ParseProfiles : string -> list cover.Profile * option error)
    (range1 range2 : gmap string accumulator -> list (string * accumulator))
    (sort_Slice : list Summary -> less_func -> list Summary)
    (coverprofile root : string) (exclusions1 exclusions2 : list string)
    (sortBy order : string) :
  range_spec range1 -> range_spec range2 -> sort_permutes sort_Slice ->
  (forall e, e ∈ exclusions1 <-> e ∈ exclusions2) ->
  let first :=
    GenerateReport ParseProfiles range1 sort_Slice
      coverprofile root exclusions1 sortBy order in
  let second :=
    GenerateReport ParseProfiles range2 sort_Slice
      coverprofile root exclusions2 sortBy order in
  GenerateReport ParseProfiles range1 sort_Slice
    coverprofile root exclusions2 sortBy order = first /\
  first.2 = second.2 /\ Total first.1 = Total second.1 /\
  Files first.1 ≡ₚ Files second.1.
Proof.
  intros Hrange1 Hrange2 Hsort Hsame first second.
  assert (GenerateReport ParseProfiles range1 sort_Slice
            coverprofile root exclusions2 sortBy order = first) as Hfirst.
  { unfold first, GenerateReport.
    destruct (ParseProfiles coverprofile) as [profiles [err|]]; [done|].
    by rewrite (accumulate_same_elements _ _ _ _ Hsame). }
  split; [done|]. rewrite <- Hfirst.
  by apply GenerateReport_two_ranges.
Qed.

Lemma GenerateReport_exclusions_as_set_witness :
  let first :=
    GenerateReport (parse_const (tied_files, None)) range_up sort_Slice_short
      "cover.out" "" ["x"; "vendor"; "x"] "missing-stmts" "asc" in
  let second :=
    GenerateReport (parse_const (tied_files, None)) range_down sort_Slice_short
      "cover.out" "" ["vendor"; "x"] "missing-stmts" "asc" in
  GenerateReport (parse_const (tied_files, None)) range_up sort_Slice_short
    "cover.out" "" ["vendor"; "x"] "missing-stmts" "asc" = first /\
  first.2 = second.2 /\ Total first.1 = Total second.1 /\
  Files first.1 ≡ₚ Files second.1.
Proof.
  apply (GenerateReport_exclusions_as_set (parse_const (tied_files, None))
           range_up range_down sort_Slice_short "cover.out" ""
           ["x"; "vendor"; "x"] ["vendor"; "x"] "missing-stmts" "asc").
  - apply range_up_spec.
  - apply range_down_spec.
  - apply sort_Slice_short_permutes.
  - intros e. rewrite !elem_of_cons, !elem_of_nil. tauto.
Defined.

Lemma int_add_swap a x y : int_add (int_add a x) y = int_add (int_add a y) x.
Proof. unfold int_add. rewrite !int_wrap_add_l. f_equal. lia. Qed.

(** Two blocks can be added in either order. *)
Lemma add_swap a x y : add (add a x) y = add (add a y) x.
Proof.
  rewrite !add_unfold. simpl.
  f_equal; try apply int_add_swap;
    destruct (covered x), (covered y); try done; apply int_add_swap.
Qed.

Lemma foldl_add_perm a bs1 bs2 :
  bs1 ≡ₚ bs2 -> foldl add a bs1 = foldl add a bs2.
Proof.
  intros Hperm. revert a.
  induction Hperm as [|b bs1 bs2 _ IH|b1 b2 bs|bs1 bs2 bs3 _ IH1 _ IH2];
    intros a; simpl.
  - done.
  - apply IH.
  - by rewrite add_swap.
  - by rewrite IH1.
Qed.

Lemma filter_perm {A} (f : A -> bool) (l1 l2 : list A) :
  l1 ≡ₚ l2 -> List.filter f l1 ≡ₚ List.filter f l2.
Proof.
  induction 1 as [|x l1 l2 _ IH|x y l|l1 l2 l3 _ IH1 _ IH2]; simpl.
  - done.
  - destruct (f x); [by constructor|done].
  - destruct (f x), (f y); try done. apply Permutation_swap.
  - by rewrite IH1.
Qed.

Lemma flat_map_perm {A B} (f : A -> list B) (l1 l2 : list A) :
  l1 ≡ₚ l2 -> flat_map f l1 ≡ₚ flat_map f l2.
Proof.
  induction 1 as [|x l1 l2 _ IH|x y l|l1 l2 l3 _ IH1 _ IH2]; simpl.
  - done.
  - by rewrite IH.
  - rewrite !(assoc_L (++)). by rewrite (Permutation_app_comm (f y) (f x)).
  - by rewrite IH1.
Qed.

Lemma existsb_perm {A} (f : A -> bool) (l1 l2 : list A) :
  l1 ≡ₚ l2 -> existsb f l1 = existsb f l2.
Proof.
  induction 1 as [|x l1 l2 _ IH|x y l|l1 l2 l3 _ IH1 _ IH2]; simpl.
  - done.
  - by rewrite IH.
  - by destruct (f x), (f y).
  - by rewrite IH1.
Qed.

(** The state after the loop does not depend on the order of the profiles. *)
Lemma accumulate_perm root exclusions profiles1 profiles2 :
  profiles1 ≡ₚ profiles2 ->
  accumulate root exclusions profiles1 = accumulate root exclusions profiles2.
Proof.
  intros Hperm.
  assert (retained root exclusions profiles1 ≡ₚ retained root exclusions profiles2)
    as Hret by by apply filter_perm.
  rewrite (surjective_pairing (accumulate root exclusions profiles1)).
  rewrite (surjective_pairing (accumulate root exclusions profiles2)).
  f_equal.
  - rewrite !accumulate_total. by apply foldl_add_perm, flat_map_perm.
  - apply map_eq. intros k. rewrite !accumulate_files.
    rewrite (existsb_perm _ _ _ Hret).
    destruct (existsb _ _); [|done]. f_equal.
    by apply foldl_add_perm, flat_map_perm, filter_perm.
Qed.

(** X9. The outcome does not depend on the order in which the parser lists
    the profiles: the counts are sums, and the names are the keys of one map. *)
Theorem GenerateReport_profiles_order
    (ParseProfiles1 ParseProfiles2 : string -> list cover.Profile * option error)
    (map_range : gmap string accumulator -> list (string * accumulator))
    (sort_Slice : list Summary -> less_func -> list Summary)
    (coverprofile root : string) (exclusions : list string)
    (sortBy order : string) (profiles1 profiles2 : list cover.Profile) :
  ParseProfiles1 coverprofile = (profiles1, None) ->
  ParseProfiles2 coverprofile = (profiles2, None) ->
  profiles1 ≡ₚ profiles2 ->
  GenerateReport ParseProfiles1 map_range sort_Slice
    coverprofile root exclusions sortBy order
  = GenerateReport ParseProfiles2 map_range sort_Slice
      coverprofile root exclusions sortBy order.
Proof.
  intros Hparse1 Hparse2 Hperm.
  rewrite (GenerateReport_parsed _ _ _ _ _ _ _ _ _ Hparse1).
  rewrite (GenerateReport_parsed _ _ _ _ _ _ _ _ _ Hparse2).
  by rewrite (accumulate_perm _ _ _ _ Hperm).
Qed.

Lemma GenerateReport_profiles_order_witness :
  GenerateReport (parse_const (split_files, None)) range_up sort_Slice_short
    "cover.out" "src" [] "missing-stmts" "desc"
  = GenerateReport (parse_const (reverse split_files, None)) range_up sort_Slice_short
      "cover.out" "src" [] "missing-stmts" "desc".
Proof.
  apply (GenerateReport_profiles_order (parse_const (split_files, None))
           (parse_const (reverse split_files, None)) range_up sort_Slice_short
           "cover.out" "src" [] "missing-stmts" "desc"
           split_files (reverse split_files)).
  - reflexivity.
  - reflexivity.
  - symmetry. apply reverse_Permutation.
Defined.

(** ** Display names and empty accumulators *)

Lemma replace_loop_length fuel old s :
  (String.length (replace_loop fuel old s) <= String.length s)%nat.
Proof.
  revert s. induction fuel as [|fuel IH]; intros s; simpl; [done|].
  destruct (String.prefix old s) eqn:Hp.
  - destruct (prefix_split _ _ Hp) as [rest ->].
    rewrite substring_after, string_length_app.
    specialize (IH rest). lia.
  - destruct s as [|c s]; simpl; [done|]. specialize (IH s). lia.
Qed.

(** X10. A display name is never longer than the path it comes from: taking
    the root out only removes bytes. *)
Theorem display_name_length (root raw : string) :
  (String.length (display_name root raw) <= String.length raw)%nat.
Proof.
  unfold display_name. destruct (String.eqb root ""); [done|].
  unfold strings_Replace_all.
  destruct (root +:+ "/"); [done|]. apply replace_loop_length.
Qed.

Lemma foldl_add_no_statements a bs :
  Forall (fun b => cover.NumStmt b = 0) bs ->
  stmts a = 0 -> coveredStmts a = 0 ->
  stmts (foldl add a bs) = 0 /\ coveredStmts (foldl add a bs) = 0.
Proof.
  intros Hzero. revert a.
  induction Hzero as [|b bs Hb _ IH]; intros a Hs Hc; simpl; [done|].
  apply IH; rewrite add_unfold; simpl; rewrite Hb.
  - by rewrite Hs.
  - rewrite Hc. by destruct (covered b).
Qed.

(** X11. The percentages are not guarded against a zero total: an
    accumulator whose blocks hold no statement, whatever their number and
    their execution counts, has the statement coverage not-a-number, and an
    accumulator that was fed no block has the block coverage not-a-number as
    well. *)
Theorem results_no_statements (n : string) (bs : list cover.ProfileBlock) :
  Forall (fun b => cover.NumStmt b = 0) bs ->
  StmtCoverage (results (foldl add (accumulator_new n) bs)) = nan /\
  (bs = [] -> BlockCoverage (results (foldl add (accumulator_new n) bs)) = nan).
Proof.
  intros Hzero. split.
  - destruct (foldl_add_no_statements (accumulator_new n) bs Hzero eq_refl eq_refl)
      as [Hs Hc].
    simpl. rewrite Hs, Hc. vm_compute. reflexivity.
  - intros ->. vm_compute. reflexivity.
Qed.

Lemma results_no_statements_witness :
  StmtCoverage (results (foldl add (accumulator_new "doc.go") [block 0 0; block 0 4]))
  = nan /\
  ([block 0 0; block 0 4] = [] ->
   BlockCoverage (results (foldl add (accumulator_new "doc.go") [block 0 0; block 0 4]))
   = nan).
Proof.
  apply (results_no_statements "doc.go" [block 0 0; block 0 4]).
  repeat constructor.
Defined.

(** ** The order of the files after a sort on a short slice *)

(** What the insertion sort settles between neighbours, read on a key. *)
Lemma isort_sorted_on {K} (cmp : Summary -> Summary -> bool) (f : Summary -> K)
    (R : relation K) (l : list Summary) :
  (forall x y, settled cmp x y -> R (f x) (f y)) ->
  Sorted R (f <$> isort cmp l).
Proof. intros HR. eapply Sorted_fmap; [exact HR|apply isort_settled]. Qed.

Section SortedShort.

Variable sort_Slice : list Summary -> less_func -> list Summary.
Hypothesis sort_Slice_short : sort_short sort_Slice.
Variable reports : list Summary.
Hypothesis reports_short : (length reports <= 6)%nat.

Lemma sortResults_isort mode order reverse cmp :
  reverse_of_order order = Some reverse -> cmp_of_mode mode = Some cmp ->
  (sortResults sort_Slice reports mode order).1
  = isort (cmp_directed reverse cmp) reports.
Proof.
  intros Hrev Hcmp.
  destruct (sortResults sort_Slice reports mode order) as [reports' err] eqn:Hs.
  assert (err = None) as ->.
  { revert Hs. unfold sortResults. rewrite Hrev.
    destruct (less_of_mode mode) eqn:Hless; [by intros [= _ <-]|].
    revert Hless Hcmp. unfold less_of_mode, cmp_of_mode. by repeat case_match. }
  destruct (sortResults_short _ sort_Slice_short _ _ _ _ reports_short Hs)
    as (reverse' & cmp' & Hrev' & Hcmp' & ->).
  simpl. congruence.
Qed.

End SortedShort.

(** X12. On a slice of at most six summaries, sorting by missing-blocks or
    by missing-stmts puts the summaries in the order of that count:
    non-decreasing with asc, non-increasing with desc. *)
Theorem sortResults_missing_sorted
    (sort_Slice : list Summary -> less_func -> list Summary)
    (reports : list Summary) :
  sort_short sort_Slice -> (length reports <= 6)%nat ->
  Sorted Z.le
    (MissingBlocks <$> (sortResults sort_Slice reports "missing-blocks" "asc").1) /\
  Sorted Z.ge
    (MissingBlocks <$> (sortResults sort_Slice reports "missing-blocks" "desc").1) /\
  Sorted Z.le
    (MissingStmts <$> (sortResults sort_Slice reports "missing-stmts" "asc").1) /\
  Sorted Z.ge
    (MissingStmts <$> (sortResults sort_Slice reports "missing-stmts" "desc").1).
Proof.
  intros Hshort Hlen.
  rewrite (sortResults_isort _ Hshort _ Hlen "missing-blocks" "asc" false
             cmp_missing_blocks eq_refl eq_refl).
  rewrite (sortResults_isort _ Hshort _ Hlen "missing-blocks" "desc" true
             cmp_missing_blocks eq_refl eq_refl).
  rewrite (sortResults_isort _ Hshort _ Hlen "missing-stmts" "asc" false
             cmp_missing_stmts eq_refl eq_refl).
  rewrite (sortResults_isort _ Hshort _ Hlen "missing-stmts" "desc" true
             cmp_missing_stmts eq_refl eq_refl).
  repeat split; apply isort_sorted_on; intros x y;
    unfold settled, cmp_directed, cmp_missing_blocks, cmp_missing_stmts;
    rewrite ?negb_false_iff, ?negb_true_iff, ?Z.ltb_ge, ?Z.ltb_lt; lia.
Qed.

Lemma sortResults_missing_sorted_witness :
  let reports := [tied_b; results (accumulator_new "c.go"); tied_a] in
  Sorted Z.le
    (MissingBlocks <$> (sortResults sort_Slice_short reports "missing-blocks" "asc").1) /\
  Sorted Z.ge
    (MissingBlocks <$> (sortResults sort_Slice_short reports "missing-blocks" "desc").1) /\
  Sorted Z.le
    (MissingStmts <$> (sortResults sort_Slice_short reports "missing-stmts" "asc").1) /\
  Sorted Z.ge
    (MissingStmts <$> (sortResults sort_Slice_short reports "missing-stmts" "desc").1).
Proof.
  apply (sortResults_missing_sorted sort_Slice_short
           [tied_b; results (accumulator_new "c.go"); tied_a]).
  - apply sort_Slice_short_short.
  - simpl. lia.
Defined.

Lemma string_leb_ltb s1 s2 : String.leb s1 s2 = true <-> String.ltb s2 s1 = false.
Proof.
  unfold String.leb, String.ltb. rewrite (String.compare_antisym s1 s2).
  by destruct (String.compare s2 s1).
Qed.

(** X13. On a slice of at most six summaries, sorting by filename puts the
    names in the bytewise order of Go's strings: no name is followed by a
    smaller one with asc, nor by a greater one with desc. *)
Theorem sortResults_filename_sorted
    (sort_Slice : list Summary -> less_func -> list Summary)
    (reports : list Summary) :
  sort_short sort_Slice -> (length reports <= 6)%nat ->
  Sorted (fun a b => String.leb a b = true)
    (Name <$> (sortResults sort_Slice reports "filename" "asc").1) /\
  Sorted (fun a b => String.leb b a = true)
    (Name <$> (sortResults sort_Slice reports "filename" "desc").1).
Proof.
  intros Hshort Hlen.
  rewrite (sortResults_isort _ Hshort _ Hlen "filename" "asc" false
             cmp_filename eq_refl eq_refl).
  rewrite (sortResults_isort _ Hshort _ Hlen "filename" "desc" true
             cmp_filename eq_refl eq_refl).
  split; apply isort_sorted_on; intros x y;
    unfold settled, cmp_directed, cmp_filename;
    rewrite ?negb_false_iff, ?negb_true_iff, string_leb_ltb.
  - intros [H|H]; [done|by apply string_ltb_asym].
  - intros [H|H]; [by apply string_ltb_asym|done].
Qed.

Lemma sortResults_filename_sorted_witness :
  let reports := [tied_b; results (accumulator_new "Total"); tied_a; tied_b] in
  Sorted (fun a b => String.leb a b = true)
    (Name <$> (sortResults sort_Slice_short reports "filename" "asc").1) /\
  Sorted (fun a b => String.leb b a = true)
    (Name <$> (sortResults sort_Slice_short reports "filename" "desc").1).
Proof.
  apply (sortResults_filename_sorted sort_Slice_short
           [tied_b; results (accumulator_new "Total"); tied_a; tied_b]).
  - apply sort_Slice_short_short.
  - simpl. lia.
Defined.

(** X14. On a slice of at most six summaries, sorting by block leaves no
    summary directly before one of strictly smaller block coverage with asc,
    nor directly before one of strictly greater block coverage with desc. *)
Theorem sortResults_block_sorted
    (sort_Slice : list Summary -> less_func -> list Summary)
    (reports : list Summary) :
  sort_short sort_Slice -> (length reports <= 6)%nat ->
  Sorted (fun a b => (b <? a)%float = false)
    (BlockCoverage <$> (sortResults sort_Slice reports "block" "asc").1) /\
  Sorted (fun a b => (a <? b)%float = false)
    (BlockCoverage <$> (sortResults sort_Slice reports "block" "desc").1).
Proof.
  intros Hshort Hlen.
  rewrite (sortResults_isort _ Hshort _ Hlen "block" "asc" false
             cmp_block eq_refl eq_refl).
  rewrite (sortResults_isort _ Hshort _ Hlen "block" "desc" true
             cmp_block eq_refl eq_refl).
  split; apply isort_sorted_on; intros x y;
    unfold settled, cmp_directed, cmp_block;
    rewrite ?negb_false_iff, ?negb_true_iff.
  - intros [H|H]; [done|by apply float_ltb_asym].
  - intros [H|H]; [by apply float_ltb_asym|done].
Qed.

Lemma sortResults_block_sorted_witness :
  let reports := [tied_b; results (accumulator_new "c.go"); tied_a] in
  Sorted (fun a b => (b <? a)%float = false)
    (BlockCoverage <$> (sortResults sort_Slice_short reports "block" "asc").1) /\
  Sorted (fun a b => (a <? b)%float = false)
    (BlockCoverage <$> (sortResults sort_Slice_short reports "block" "desc").1).
Proof.
  apply (sortResults_block_sorted sort_Slice_short
           [tied_b; results (accumulator_new "c.go"); tied_a]).
  - apply sort_Slice_short_short.
  - simpl. lia.
Defined.

(** With distinct names, the insertion sort by descending name is the
    insertion sort by ascending name, read backwards. *)
Lemma isort_filename_reverse l1 l2 :
  l1 ≡ₚ l2 -> NoDup (Name <$> l1) ->
  isort (cmp_directed true cmp_filename) l2
  = reverse (isort (cmp_directed false cmp_filename) l1).
Proof.
  intros Hperm Hnd.
  apply (Sorted_unique (name_order true)).
  - eapply (Sorted_distinct _ _ Name); [apply settled_name_order|apply isort_settled|].
    by rewrite isort_perm, <- Hperm.
  - assert (Sorted (name_order false) (isort (cmp_directed false cmp_filename) l1))
      as Hasc.
    { eapply (Sorted_distinct _ _ Name);
        [apply settled_name_order|apply isort_settled|].
      by rewrite isort_perm. }
    exact (Sorted_reverse _ _ Hasc).
  - by rewrite reverse_Permutation, !isort_perm.
Qed.

(** X15. When a report lists at most six files, sorting them by filename
    with desc gives the list that asc gives, read backwards, in whatever
    order the map was visited in either call. *)
Theorem GenerateReport_filename_desc
    (ParseProfiles : string -> list cover.Profile * option error)
    (range1 range2 : gmap string accumulator -> list (string * accumulator))
    (sort_Slice : list Summary -> less_func -> list Summary)
    (coverprofile root : string) (exclusions : list string)
    (ascending descending : Report) :
  range_spec range1 -> range_spec range2 ->
  sort_permutes sort_Slice -> sort_short sort_Slice ->
  GenerateReport ParseProfiles range1 sort_Slice
    coverprofile root exclusions "filename" "asc" = (ascending, None) ->
  GenerateReport ParseProfiles range2 sort_Slice
    coverprofile root exclusions "filename" "desc" = (descending, None) ->
  (length (Files ascending) <= 6)%nat ->
  Files descending = reverse (Files ascending).
Proof.
  intros Hrange1 Hrange2 Hperm Hshort Hasc Hdesc Hlen.
  unfold GenerateReport in Hasc, Hdesc.
  destruct (ParseProfiles coverprofile) as [profiles [err|]]; [done|].
  set (st := accumulate root exclusions profiles) in *.
  pose proof (accumulated_accumulate root exclusions profiles) as Hacc.
  fold st in Hacc. unfold makeReport, sortResults in Hasc, Hdesc.
  simpl in Hasc, Hdesc.
  injection Hasc as <-. injection Hdesc as <-. simpl in *.
  set (l1 := map (fun kv => results kv.2) (range1 st.2)) in *.
  set (l2 := map (fun kv => results kv.2) (range2 st.2)) in *.
  assert (l1 ≡ₚ (fun kv => results kv.2) <$> map_to_list st.2) as Hl1.
  { unfold l1. change (map ?f ?l) with (f <$> l). apply fmap_Permutation, Hrange1. }
  assert (l2 ≡ₚ (fun kv => results kv.2) <$> map_to_list st.2) as Hl2.
  { unfold l2. change (map ?f ?l) with (f <$> l). apply fmap_Permutation, Hrange2. }
  rewrite (Hperm _ _) in Hlen.
  rewrite !Hshort; [|done|by rewrite Hl2, <- Hl1].
  rewrite (insertionSort_func_isort _ _
             (induced_directed true _ _ induced_filename)).
  rewrite (insertionSort_func_isort _ _
             (induced_directed false _ _ induced_filename)).
  apply isort_filename_reverse; [by rewrite Hl1, Hl2|].
  rewrite Hl1. by apply (accumulated_names exclusions).
Qed.

Lemma GenerateReport_filename_desc_witness :
  Files (GenerateReport (parse_const (split_files, None)) range_up sort_Slice_short
           "cover.out" "src" [] "filename" "desc").1
  = reverse
      (Files (GenerateReport (parse_const (split_files, None)) range_down
                sort_Slice_short "cover.out" "src" [] "filename" "asc").1).
Proof.
  apply (GenerateReport_filename_desc (parse_const (split_files, None))
           range_down range_up sort_Slice_short "cover.out" "src" []).
  - apply range_down_spec.
  - apply range_up_spec.
  - apply sort_Slice_short_permutes.
  - apply sort_Slice_short_short.
  - vm_compute. reflexivity.
  - vm_compute. reflexivity.
  - vm_compute. lia.
Defined.
